(** * TextProcessor (scripts/ml_functions.py): text statistics, pattern
      search and file helpers

    A shallow embedding of the [TextProcessor] class.  Python [str] values
    are sequences of Unicode code points; the file system, the log and the
    clock are threaded explicitly through a small state-and-exception
    monad.  The library calls the class makes ([str.split], [Counter],
    [re.split], [re.findall], [os.path.join], [open], ...) are modelled by
    the functions of the first sections, each after the documented
    behaviour of CPython on a POSIX system. *)

From Stdlib Require Import String Ascii QArith.
From stdpp Require Import gmap list fin_maps sorting.

Set Default Proof Using "Type".
Local Open Scope nat_scope.
Local Open Scope list_scope.

(** ** Python strings *)

(** A character is its code point, a [str] the sequence of them. *)
Abbreviation char := N (only parsing).
Abbreviation str := (list N) (only parsing).

(** Code points of a literal (all below 256). *)
Definition u (s : string) : str := N_of_ascii <$> list_ascii_of_string s.

(** [str.isspace] for one character: the code points CPython's
    [Py_UNICODE_ISSPACE] accepts. *)
Definition isspace (c : char) : bool :=
  ((9 <=? c) && (c <=? 13) || (28 <=? c) && (c <=? 32)
   || (c =? 133) || (c =? 160) || (c =? 5760)
   || (8192 <=? c) && (c <=? 8202)
   || (c =? 8232) || (c =? 8233) || (c =? 8239) || (c =? 8287)
   || (c =? 12288))%N.

(** [text.split()]: the maximal runs of non-whitespace characters, in
    order.  [word] holds the characters of the run being read. *)
Fixpoint split_from (word : str) (s : str) : list str :=
  match s with
  | [] => match word with [] => [] | _ => [word] end
  | c :: s' =>
      if isspace c
      then match word with [] => split_from [] s' | _ => word :: split_from [] s' end
      else split_from (word ++ [c]) s'
  end.

Definition split (text : str) : list str := split_from [] text.

(** ** [collections.Counter] *)

(** A [dict] keeps its keys in insertion order: an association list. *)
Abbreviation counter := (list (list N * nat)) (only parsing).

(** [mapping[elem] = mapping.get(elem, 0) + 1] *)
Fixpoint counter_incr (elem : str) (d : counter) : counter :=
  match d with
  | [] => [(elem, 1)]
  | (k, v) :: d' =>
      if decide (k = elem) then (k, S v) :: d' else (k, v) :: counter_incr elem d'
  end.

(** [Counter(iterable)] counts the elements from left to right. *)
Definition Counter (iterable : list str) : counter :=
  foldl (fun d elem => counter_incr elem d) [] iterable.

(** [sorted(items, key=itemgetter(1), reverse=True)]: a stable sort, so
    items of equal count keep their order. *)
Fixpoint insert_desc (x : list N * nat) (l : counter) : counter :=
  match l with
  | [] => [x]
  | y :: l' => if y.2 <=? x.2 then x :: y :: l' else y :: insert_desc x l'
  end.

Definition sorted_desc (items : counter) : counter := foldr insert_desc [] items.

(** [Counter.most_common(n)] is [heapq.nlargest(n, items, key=count)],
    which is [sorted(items, key=count, reverse=True)[:n]]. *)
Definition most_common (n : nat) (c : counter) : counter := take n (sorted_desc c).

(** ** Regular expressions ([re]) *)

(** The fragment of the [re] dialect that is modelled: literals, escaped
    punctuation, [.], character sets with ranges and negation, [^] and [$],
    the greedy repeats [*], [+] and [?], capturing groups and alternation.
    Counted repeats, lazy and possessive repeats, [(?...)] extensions and
    backslash escapes of letters and digits are outside of it. *)
Inductive regex : Type :=
| Empty
| Lit (c : char)
| Dot
| CharSet (negate : bool) (ranges : list (char * char))
| Bol
| Eol
| Cat (r1 r2 : regex)
| Alt (r1 r2 : regex)
| Star (r : regex)
| Plus (r : regex)
| Opt (r : regex)
| Group (i : nat) (r : regex).

Module Parse.

(** One open subpattern: its group number (0 for the whole pattern), the
    finished alternatives and the items of the alternative being read,
    both latest first. *)
Record frame := Frame { f_group : nat; f_alts : list regex; f_seq : list regex }.

Inductive mode : Type :=
| Normal
| Escape
| Open
| SetStart
| SetItem (negate : bool) (items : list (char * char))
| SetEscape (negate : bool) (items : list (char * char))
| SetHave (negate : bool) (items : list (char * char)) (lo : char)
| SetRange (negate : bool) (items : list (char * char)) (lo : char)
| SetRangeEscape (negate : bool) (items : list (char * char)) (lo : char).

Record state := State
  { st_mode : mode; st_cur : frame; st_outer : list frame; st_groups : nat }.

(** Why a pattern has no regex: [re.error], or syntax beyond the fragment. *)
Inductive failure : Type := Invalid | Beyond.

Definition seq_regex (items : list regex) : regex :=
  match items with
  | [] => Empty
  | last :: before => foldl (fun acc item => Cat item acc) last before
  end.

Fixpoint alt_regex (alts : list regex) : regex :=
  match alts with
  | [] => Empty
  | [r] => r
  | r :: rest => Alt r (alt_regex rest)
  end.

Definition close (f : frame) : regex :=
  alt_regex (rev (seq_regex (f_seq f) :: f_alts f)).

Definition push_item (item : regex) (st : state) : state :=
  let f := st_cur st in
  State Normal (Frame (f_group f) (f_alts f) (item :: f_seq f))
        (st_outer st) (st_groups st).

Definition with_mode (md : mode) (st : state) : state :=
  State md (st_cur st) (st_outer st) (st_groups st).

Definition is_alnum (c : char) : bool :=
  ((48 <=? c) && (c <=? 57) || (65 <=? c) && (c <=? 90)
   || (97 <=? c) && (c <=? 122))%N.

Definition repeated (r : regex) : bool :=
  match r with Star _ | Plus _ | Opt _ => true | _ => false end.

Definition anchor (r : regex) : bool :=
  match r with Bol | Eol => true | _ => false end.

Definition repeat (c : char) (st : state) : failure + state :=
  let f := st_cur st in
  match f_seq f with
  | [] => inl Invalid                             (* nothing to repeat *)
  | item :: rest =>
      if anchor item then inl Invalid             (* nothing to repeat *)
      else if repeated item
      then (if (c =? 42)%N then inl Invalid       (* multiple repeat *)
            else inl Beyond)                      (* lazy or possessive *)
      else
        let item' := if (c =? 42)%N then Star item
                     else if (c =? 43)%N then Plus item else Opt item in
        inr (State Normal (Frame (f_group f) (f_alts f) (item' :: rest))
                   (st_outer st) (st_groups st))
  end.

Definition normal (st : state) (c : char) : failure + state :=
  let f := st_cur st in
  if (c =? 92)%N then inr (with_mode Escape st)
  else if (c =? 91)%N then inr (with_mode SetStart st)
  else if (c =? 40)%N then inr (with_mode Open st)
  else if (c =? 41)%N then
    match st_outer st with
    | [] => inl Invalid                           (* unbalanced parenthesis *)
    | o :: outer =>
        inr (State Normal
                   (Frame (f_group o) (f_alts o)
                          (Group (f_group f) (close f) :: f_seq o))
                   outer (st_groups st))
    end
  else if (c =? 124)%N then
    inr (State Normal (Frame (f_group f) (seq_regex (f_seq f) :: f_alts f) [])
               (st_outer st) (st_groups st))
  else if (c =? 42)%N || (c =? 43)%N || (c =? 63)%N then repeat c st
  else if (c =? 123)%N then inl Beyond
  else if (c =? 94)%N then inr (push_item Bol st)
  else if (c =? 36)%N then inr (push_item Eol st)
  else if (c =? 46)%N then inr (push_item Dot st)
  else inr (push_item (Lit c) st).

Definition set_item (negate : bool) (items : list (char * char))
    (st : state) (c : char) : failure + state :=
  if (c =? 93)%N && negb (bool_decide (items = []))
  then inr (push_item (CharSet negate (rev items)) st)
  else if (c =? 92)%N then inr (with_mode (SetEscape negate items) st)
  else inr (with_mode (SetHave negate items c) st).

Definition set_range (negate : bool) (items : list (char * char))
    (lo hi : char) (st : state) : failure + state :=
  if (hi <? lo)%N then inl Invalid                (* bad character range *)
  else inr (with_mode (SetItem negate ((lo, hi) :: items)) st).

Definition step (st : state) (c : char) : failure + state :=
  match st_mode st with
  | Normal => normal st c
  | Escape => if is_alnum c then inl Beyond else inr (push_item (Lit c) st)
  | Open =>
      if (c =? 63)%N then inl Beyond
      else
        let g := S (st_groups st) in
        normal (State Normal (Frame g [] []) (st_cur st :: st_outer st) g) c
  | SetStart =>
      if (c =? 94)%N then inr (with_mode (SetItem true []) st)
      else set_item false [] st c
  | SetItem negate items => set_item negate items st c
  | SetEscape negate items =>
      if is_alnum c then inl Beyond
      else inr (with_mode (SetHave negate items c) st)
  | SetHave negate items lo =>
      if (c =? 45)%N then inr (with_mode (SetRange negate items lo) st)
      else set_item negate ((lo, lo) :: items) st c
  | SetRange negate items lo =>
      if (c =? 93)%N
      then inr (push_item (CharSet negate (rev ((45, 45) :: (lo, lo) :: items))%N) st)
      else if (c =? 92)%N then inr (with_mode (SetRangeEscape negate items lo) st)
      else set_range negate items lo c st
  | SetRangeEscape negate items lo =>
      if is_alnum c then inl Beyond else set_range negate items lo c st
  end.

Fixpoint steps (st : state) (pattern : str) : failure + state :=
  match pattern with
  | [] => inr st
  | c :: rest =>
      match step st c with
      | inl e => inl e
      | inr st' => steps st' rest
      end
  end.

Definition initial : state := State Normal (Frame 0 [] []) [] 0.

End Parse.

(** The outcome of [re.compile(pattern)]. *)
Inductive compiled : Type :=
| Compiled (r : regex) (groups : nat)
| PatternError
| NotModelled.

Definition re_compile (pattern : str) : compiled :=
  match Parse.steps Parse.initial pattern with
  | inl Parse.Invalid => PatternError
  | inl Parse.Beyond => NotModelled
  | inr st =>
      match Parse.st_mode st, Parse.st_outer st with
      | Parse.Normal, [] => Compiled (Parse.close (Parse.st_cur st)) (Parse.st_groups st)
      | _, _ => PatternError      (* unterminated subpattern, set or escape *)
      end
  end.

(** *** Matching *)

(** Group marks: the span each group matched last. *)
Abbreviation marks := (gmap nat (nat * nat)) (only parsing).

(** What is tried once a regex has matched: the text still to read, the
    position reached and the marks.  A regex matches by backtracking: it
    offers its continuation each way it can match, longest first for the
    repeats and left to right for the alternatives. *)
Abbreviation kont :=
  (list N -> nat -> gmap nat (nat * nat) -> option (nat * gmap nat (nat * nat)))
  (only parsing).

Definition in_ranges (c : char) (ranges : list (char * char)) : bool :=
  existsb (fun r => (r.1 <=? c) && (c <=? r.2))%N ranges.

(** A greedy repeat of [body]: another round is tried first, unless the
    previous round read nothing ([last] is where it started).  A round
    that reads something shortens [s], so [n] rounds suffice when [n]
    exceeds the length of [s] by two. *)
Fixpoint match_repeat (body : list N -> nat -> gmap nat (nat * nat) -> kont -> option (nat * gmap nat (nat * nat)))
    (n : nat) (last : option nat) (s : str) (pos : nat) (mk : marks) (k : kont)
    : option (nat * marks) :=
  match n with
  | 0 => k s pos mk
  | S n' =>
      if bool_decide (last = Some pos) then k s pos mk
      else
        match body s pos mk (fun s' pos' mk' => match_repeat body n' (Some pos) s' pos' mk' k) with
        | Some res => Some res
        | None => k s pos mk
        end
  end.

Fixpoint match_re (r : regex) (s : str) (pos : nat) (mk : marks) (k : kont)
    : option (nat * marks) :=
  match r with
  | Empty => k s pos mk
  | Lit c =>
      match s with
      | x :: s' => if (x =? c)%N then k s' (S pos) mk else None
      | [] => None
      end
  | Dot =>
      match s with
      | x :: s' => if (x =? 10)%N then None else k s' (S pos) mk
      | [] => None
      end
  | CharSet negate ranges =>
      match s with
      | x :: s' => if xorb negate (in_ranges x ranges) then k s' (S pos) mk else None
      | [] => None
      end
  | Bol => if pos =? 0 then k s pos mk else None
  | Eol =>
      match s with
      | [] => k s pos mk
      | [x] => if (x =? 10)%N then k s pos mk else None
      | _ => None
      end
  | Cat r1 r2 => match_re r1 s pos mk (fun s' pos' mk' => match_re r2 s' pos' mk' k)
  | Alt r1 r2 =>
      match match_re r1 s pos mk k with
      | Some res => Some res
      | None => match_re r2 s pos mk k
      end
  | Star r1 => match_repeat (match_re r1) (2 + length s) None s pos mk k
  | Plus r1 =>
      match_re r1 s pos mk
        (fun s' pos' mk' => match_repeat (match_re r1) (2 + length s') None s' pos' mk' k)
  | Opt r1 =>
      match match_re r1 s pos mk k with
      | Some res => Some res
      | None => k s pos mk
      end
  | Group i r1 =>
      match_re r1 s pos mk (fun s' pos' mk' => k s' pos' (<[i := (pos, pos')]> mk'))
  end.

(** A match: where it starts, where it ends, and the group marks. *)
Record re_match := Match { m_start : nat; m_end : nat; m_marks : marks }.

(** The first match that starts at [pos] or later ([s] is the text from
    [pos] on), trying the start positions from left to right. *)
Fixpoint scan (r : regex) (s : str) (pos : nat) : option re_match :=
  match match_re r s pos ∅ (fun _ e mk => Some (e, mk)) with
  | Some (e, mk) => Some (Match pos e mk)
  | None =>
      match s with
      | [] => None
      | _ :: s' => scan r s' (S pos)
      end
  end.

(** [pattern.search(text, pos)] as the scanners use it: when the previous
    match was empty ([must_advance]) an empty match at [pos] itself is
    refused. *)
Definition search (r : regex) (s : str) (pos : nat) (must_advance : bool)
    : option re_match :=
  match match_re r s pos ∅
          (fun _ e mk => if must_advance && (e =? pos) then None else Some (e, mk)) with
  | Some (e, mk) => Some (Match pos e mk)
  | None =>
      match s with
      | [] => None
      | _ :: s' => scan r s' (S pos)
      end
  end.

(** The successive non-overlapping matches, each search resuming where the
    previous match ended.  No position ends more than two matches, so
    [2 * length text + 3] rounds reach the end of the text. *)
Fixpoint matches_from (n : nat) (r : regex) (s : str) (pos : nat) (must_advance : bool)
    : list re_match :=
  match n with
  | 0 => []
  | S n' =>
      match search r s pos must_advance with
      | None => []
      | Some mt =>
          mt :: matches_from n' r (drop (m_end mt - pos) s) (m_end mt)
                  (m_end mt =? m_start mt)
      end
  end.

Definition finditer (r : regex) (text : str) : list re_match :=
  matches_from (2 * length text + 3) r text 0 false.

(** [text[a:b]] *)
Definition slice (text : str) (a b : nat) : str := take (b - a) (drop a text).

(** The values the [re] functions return in their lists. *)
Inductive pyval : Type :=
| VStr (s : str)
| VNone
| VTuple (items : list (list N)).

(** The text of group [i], the empty string if it took no part. *)
Definition group_str (text : str) (mt : re_match) (i : nat) : str :=
  match m_marks mt !! i with
  | Some (a, b) => slice text a b
  | None => []
  end.

(** [pattern.findall(text)]: per match the whole match if the pattern has
    no group, the group if it has one, the tuple of the groups otherwise. *)
Definition findall_item (groups : nat) (text : str) (mt : re_match) : pyval :=
  match groups with
  | 0 => VStr (slice text (m_start mt) (m_end mt))
  | 1 => VStr (group_str text mt 1)
  | _ => VTuple (group_str text mt <$> seq 1 groups)
  end.

Definition findall (r : regex) (groups : nat) (text : str) : list pyval :=
  findall_item groups text <$> finditer r text.

(** [pattern.split(text)]: the text before each match, then the groups of
    the match ([None] for one that took no part), and after the last match
    the rest of the text, even if empty. *)
Definition split_group (text : str) (mt : re_match) (i : nat) : pyval :=
  match m_marks mt !! i with
  | Some (a, b) => VStr (slice text a b)
  | None => VNone
  end.

Fixpoint split_pieces (groups : nat) (text : str) (last : nat) (ms : list re_match)
    : list pyval :=
  match ms with
  | [] => [VStr (slice text last (length text))]
  | mt :: ms' =>
      VStr (slice text last (m_start mt))
        :: (split_group text mt <$> seq 1 groups)
        ++ split_pieces groups text (m_end mt) ms'
  end.

Definition re_split_compiled (r : regex) (groups : nat) (text : str) : list pyval :=
  split_pieces groups text 0 (finditer r text).

(** ** Paths ([posixpath]) *)

Definition sep : char := 47%N.

(** [a + b] of two strings is [a ++ b]; [os.path.join(a, b)]. *)
Definition path_join (a b : str) : str :=
  match b with
  | c :: _ => if (c =? sep)%N then b
              else match a with
                   | [] => b
                   | _ => if bool_decide (last a = Some sep) then a ++ b
                          else a ++ sep :: b
                   end
  | [] => match a with
          | [] => []
          | _ => if bool_decide (last a = Some sep) then a else a ++ [sep]
          end
  end.

(** [s.rfind(c)]: the text before and after the last [c]. *)
Fixpoint rsplit (c : char) (s : str) : option (str * str) :=
  match s with
  | [] => None
  | x :: s' =>
      match rsplit c s' with
      | Some (h, t) => Some (x :: h, t)
      | None => if (x =? c)%N then Some ([], s') else None
      end
  end.

Fixpoint rstrip (c : char) (s : str) : str :=
  match s with
  | [] => []
  | x :: s' =>
      match rstrip c s' with
      | [] => if (x =? c)%N then [] else [x]
      | t => x :: t
      end
  end.

(** [os.path.split(p)] *)
Definition path_split (p : str) : str * str :=
  match rsplit sep p with
  | None => ([], p)
  | Some (h, t) =>
      let head := h ++ [sep] in
      (if forallb (fun x => (x =? sep)%N) head then head else rstrip sep head, t)
  end.

Definition dirname (p : str) : str := (path_split p).1.

(** [os.path.splitext(p)[0]]: the extension starts at the last dot of the
    last component, unless only dots precede it there. *)
Definition splitext_root (p : str) : str :=
  let name := match rsplit sep p with Some (_, t) => t | None => p end in
  match rsplit 46%N name with
  | Some (stem, ext) =>
      if forallb (fun x => (x =? 46)%N) stem then p
      else take (length p - S (length ext)) p
  | None => p
  end.

(** The components of a path, [/]-separated. *)
Fixpoint components (cur : str) (p : str) : list str :=
  match p with
  | [] => [cur]
  | c :: p' => if (c =? sep)%N then cur :: components [] p' else components (cur ++ [c]) p'
  end.

(** The bytes a character and a string take in UTF-8. *)
Definition utf8_size (c : char) : N :=
  (if c <? 128 then 1 else if c <? 2048 then 2 else if c <? 65536 then 3 else 4)%N.

Definition utf8_length (s : str) : N := foldr (fun c n => utf8_size c + n)%N 0%N s.

(** The characters every file name may hold: [open] and [os.mkdir] refuse
    a NUL with [ValueError] and a lone surrogate with
    [UnicodeEncodeError]. *)
Definition name_char (c : char) : bool :=
  negb (c =? 0)%N && negb ((55296 <=? c) && (c <=? 57343))%N && (c <=? 1114111)%N.

(** The paths the file-system model covers: relative or absolute, not
    empty, without empty components, [.] or [..] (so every file has one
    spelling), and accepted as a name by the operating system: made of
    [name_char]s, no component over 255 bytes and the path under 4096
    bytes (beyond these it answers [ENAMETOOLONG]). *)
Definition plain (p : str) : bool :=
  let cs := match p with
            | c :: p' => if (c =? sep)%N then components [] p' else components [] p
            | [] => [[]]
            end in
  forallb (fun c => negb (bool_decide (c = []) || bool_decide (c = [46]%N)
                          || bool_decide (c = [46; 46]%N))) cs
  && forallb name_char p
  && forallb (fun c => utf8_length c <=? 255)%N cs
  && (utf8_length p <? 4096)%N.

(** ** The world: files, log and clock *)

(** A directory, a regular file that holds the UTF-8 encoding of a text,
    or a regular file whose bytes are no UTF-8 text. *)
Inductive node : Type := Dir | File (content : list N) | Binary.

#[global] Instance node_eq_dec : EqDecision node.
Proof. solve_decision. Defined.

Inductive exn : Type :=
| FileNotFoundError (path : list N)
| IsADirectoryError (path : list N)
| NotADirectoryError (path : list N)
| FileExistsError (path : list N)
| UnicodeEncodeError
| UnicodeDecodeError
| ReError (pattern : list N)
| ZeroDivisionError.

Inductive level : Type := INFO | ERROR.

(** A log record: the level, the message up to the exception text, and the
    exception whose text ends an error message. *)
Record log_record := Log { l_level : level; l_text : list N; l_cause : option exn }.

Record datetime := Datetime
  { year : nat; month : nat; day : nat; hour : nat; minute : nat; second : nat }.

(** Files are kept under their path: as decoded text, or as [Binary] when
    their bytes decode to none; the working directory and the root always
    exist.  Permissions and disk failures are not modelled. *)
Record world := World
  { fs : gmap (list N) node; log : list log_record; now : datetime }.

(** How a call ends: with a value, with an exception, or outside of what
    the model covers (a pattern or a path it does not describe). *)
Inductive outcome (A : Type) : Type :=
| Return (a : A)
| Raise (e : exn)
| Unmodelled.
Arguments Return {A} a.
Arguments Raise {A} e.
Arguments Unmodelled {A}.

Definition M (A : Type) : Type := world -> outcome A * world.

Definition ret {A} (a : A) : M A := fun w => (Return a, w).
Definition raise {A} (e : exn) : M A := fun w => (Raise e, w).
Definition unmodelled {A} : M A := fun w => (Unmodelled, w).

Definition bind {A B} (c : M A) (k : A -> M B) : M B :=
  fun w =>
    match c w with
    | (Return a, w') => k a w'
    | (Raise e, w') => (Raise e, w')
    | (Unmodelled, w') => (Unmodelled, w')
    end.

Notation "'let!' x ':=' c 'in' k" := (bind c (fun x => k))
  (at level 10, x name, c at level 100, k at level 200).
Notation "c ';;' k" := (bind c (fun _ => k))
  (at level 100, k at level 200, right associativity).

(** [try: body except Exception as e: handler(e)] *)
Definition try_except {A} (body : M A) (handler : exn -> M A) : M A :=
  fun w =>
    match body w with
    | (Raise e, w') => handler e w'
    | res => res
    end.

Definition get_fs : M (gmap (list N) node) := fun w => (Return (fs w), w).
Definition put_fs (f : gmap (list N) node) : M unit :=
  fun w => (Return tt, World f (log w) (now w)).

(** [logger.info(text)] and [logger.error(text + str(e))] *)
Definition logger_info (text : str) : M unit :=
  fun w => (Return tt, World (fs w) (log w ++ [Log INFO text None]) (now w)).
Definition logger_error (text : str) (e : exn) : M unit :=
  fun w => (Return tt, World (fs w) (log w ++ [Log ERROR text (Some e)]) (now w)).

(** [datetime.now()] *)
Definition datetime_now : M datetime := fun w => (Return (now w), w).

(** *** Files *)

(** The proper ancestors of a plain path, nearest first; the working
    directory and the root, which always exist, are left out. *)
Fixpoint ancestors_from (n : nat) (p : str) : list str :=
  match n with
  | 0 => []
  | S n' =>
      let head := dirname p in
      if bool_decide (head = []) || bool_decide (head = [sep]) then []
      else head :: ancestors_from n' head
  end.

Definition ancestors (p : str) : list str := ancestors_from (length p) p.

(** Resolving the directories [dirs] on the way to [p], outermost first:
    a missing one stops it with [FileNotFoundError], a regular file with
    [NotADirectoryError]. *)
Fixpoint walk (f : gmap (list N) node) (p : str) (dirs : list str) : M unit :=
  match dirs with
  | [] => ret tt
  | d :: rest =>
      match f !! d with
      | Some Dir => walk f p rest
      | Some (File _) | Some Binary => raise (NotADirectoryError p)
      | None => raise (FileNotFoundError p)
      end
  end.

Definition resolve_parent (f : gmap (list N) node) (p : str) : M unit :=
  walk f p (rev (ancestors p)).

(** Reading in text mode decodes the bytes of the file, which fails with
    [UnicodeDecodeError] if they are no UTF-8 text, and turns [\r\n] and
    [\r] into [\n]. *)
Fixpoint universal_newlines (s : str) : str :=
  match s with
  | [] => []
  | c :: s' =>
      if (c =? 13)%N
      then 10%N :: match s' with
                   | d :: s'' => if (d =? 10)%N then universal_newlines s''
                                 else universal_newlines s'
                   | [] => []
                   end
      else c :: universal_newlines s'
  end.

(** [with open(p, 'r', encoding='utf-8') as file: file.read()] *)
Definition open_read (p : str) : M str :=
  if plain p then
    let! f := get_fs in
    resolve_parent f p ;;
    match f !! p with
    | Some (File content) => ret (universal_newlines content)
    | Some Binary => raise UnicodeDecodeError
    | Some Dir => raise (IsADirectoryError p)
    | None => raise (FileNotFoundError p)
    end
  else unmodelled.

(** UTF-8 has no encoding for a lone surrogate. *)
Definition encodable (s : str) : bool :=
  forallb (fun c => negb ((55296 <=? c) && (c <=? 57343))%N) s.

(** [with open(p, 'w', encoding='utf-8') as file: file.write(content)]:
    opening creates the file or empties it, writing encodes the text. *)
Definition open_write (p : str) (content : str) : M unit :=
  if plain p then
    let! f := get_fs in
    resolve_parent f p ;;
    match f !! p with
    | Some Dir => raise (IsADirectoryError p)
    | _ =>
        put_fs (<[p := File []]> f) ;;
        if encodable content then put_fs (<[p := File content]> f)
        else raise UnicodeEncodeError
    end
  else unmodelled.

(** [os.mkdir(p)] *)
Definition mkdir (p : str) : M unit :=
  let! f := get_fs in
  resolve_parent f p ;;
  match f !! p with
  | Some _ => raise (FileExistsError p)
  | None => put_fs (<[p := Dir]> f)
  end.

(** [os.makedirs(name, exist_ok=True)] on the chain [name :: ancestors]:
    a missing parent is made first, then the directory itself, and it is
    no error if the directory is already there. *)
Fixpoint makedirs_chain (chain : list str) : M unit :=
  match chain with
  | [] => ret tt
  | name :: above =>
      (match above with
       | head :: _ =>
           let! f := get_fs in
           if bool_decide (is_Some (f !! head)) then ret tt
           else try_except (makedirs_chain above)
                  (fun e => match e with FileExistsError _ => ret tt | _ => raise e end)
       | [] => ret tt
       end) ;;
      try_except (mkdir name)
        (fun e =>
           let! f := get_fs in
           if bool_decide (f !! name = Some Dir) then ret tt else raise e)
  end.

Definition makedirs (name : str) : M unit :=
  if plain name then makedirs_chain (name :: ancestors name) else unmodelled.

Definition empty_world (t : datetime) : world := World ∅ [] t.

(** ** Remaining library calls *)

(** [sep.join(parts)] *)
Fixpoint str_join (sp : str) (parts : list str) : str :=
  match parts with
  | [] => []
  | [p] => p
  | p :: rest => p ++ sp ++ str_join sp rest
  end.

(** [str(n)] *)
Fixpoint decimal_digits (fuel n : nat) (acc : str) : str :=
  match fuel with
  | 0 => acc
  | S fuel' =>
      let acc' := (48 + N.of_nat (n mod 10))%N :: acc in
      if n / 10 =? 0 then acc' else decimal_digits fuel' (n / 10) acc'
  end.

Definition str_of_nat (n : nat) : str := decimal_digits (S n) n [].

(** [n] in decimal, zero-padded (and cut) to [width] digits. *)
Fixpoint zfill (width : nat) (n : nat) : str :=
  match width with
  | 0 => []
  | S w => zfill w (n / 10) ++ [(48 + N.of_nat (n mod 10))%N]
  end.

(** [t.strftime("%Y%m%d_%H%M%S")]; the clock reports four-digit years. *)
Definition strftime (t : datetime) : str :=
  zfill 4 (year t) ++ zfill 2 (month t) ++ zfill 2 (day t) ++ u "_"
  ++ zfill 2 (hour t) ++ zfill 2 (minute t) ++ zfill 2 (second t).

(** [a / b] on integers: the quotient (as a float, the nearest one). *)
Definition truediv (a b : nat) : M Q :=
  match b with
  | 0 => raise ZeroDivisionError
  | S _ => ret (Z.of_nat a # Pos.of_nat b)
  end.

(** [re.split(pattern, text)] and [re.findall(pattern, text)] compile the
    pattern first; [re.error] is raised for an invalid one. *)
Definition with_pattern {A} (pattern : str) (k : regex -> nat -> A) : M A :=
  match re_compile pattern with
  | Compiled r groups => ret (k r groups)
  | PatternError => raise (ReError pattern)
  | NotModelled => unmodelled
  end.

Definition re_split (pattern text : str) : M (list pyval) :=
  with_pattern pattern (fun r groups => re_split_compiled r groups text).

Definition re_findall (pattern text : str) : M (list pyval) :=
  with_pattern pattern (fun r groups => findall r groups text).

(** ** [TextProcessor] *)

Record TextProcessor := Processor { input_dir : list N; output_dir : list N }.

(** The dictionary [analyze_text] returns. *)
Record analysis := Analysis
  { word_count : nat;
    character_count : nat;
    sentence_count : nat;
    average_word_length : Q;
    most_common_words : list (list N * nat) }.

(** [TextProcessor(input_dir, output_dir)] *)
Definition init (input_dir output_dir : str) : M TextProcessor :=
  makedirs input_dir ;;
  makedirs output_dir ;;
  logger_info (u "TextProcessor initialized with input_dir: " ++ input_dir
               ++ u ", output_dir: " ++ output_dir) ;;
  ret (Processor input_dir output_dir).

Definition default_input_dir : str := u "data/input".
Definition default_output_dir : str := u "data/output".

Definition read_text_file (self : TextProcessor) (filename : str) : M str :=
  try_except
    (let file_path := path_join (input_dir self) filename in
     let! content := open_read file_path in
     logger_info (u "Successfully read file: " ++ filename) ;;
     ret content)
    (fun e =>
       logger_error (u "Error reading file " ++ filename ++ u ": ") e ;;
       raise e).

Definition write_text_file (self : TextProcessor) (filename content : str) : M unit :=
  try_except
    (let file_path := path_join (output_dir self) filename in
     open_write file_path content ;;
     logger_info (u "Successfully wrote to file: " ++ filename))
    (fun e =>
       logger_error (u "Error writing to file " ++ filename ++ u ": ") e ;;
       raise e).

Definition analyze_text (self : TextProcessor) (text : str) : M analysis :=
  try_except
    (let words := split text in
     let! sentences := re_split (u "[.!?]+") text in
     let! average :=
       match words with
       | [] => ret 0%Q
       | _ => truediv (sum_list (length <$> words)) (length words)
       end in
     let result :=
       {| word_count := length words;
          character_count := length text;
          sentence_count := length sentences;
          average_word_length := average;
          most_common_words := most_common 5 (Counter words) |} in
     logger_info (u "Text analysis completed successfully") ;;
     ret result)
    (fun e =>
       logger_error (u "Error analyzing text: ") e ;;
       raise e).

(** The loop of [merge_text_files]: one section per file, in order. *)
Fixpoint merge_sections (self : TextProcessor) (file_list : list str) : M (list str) :=
  match file_list with
  | [] => ret []
  | filename :: rest =>
      let! content := read_text_file self filename in
      let! sections := merge_sections self rest in
      ret ((u "--- " ++ filename ++ u " ---" ++ [10%N] ++ content ++ [10%N]) :: sections)
  end.

Definition merge_text_files (self : TextProcessor) (file_list : list str)
    (output_filename : str) : M unit :=
  try_except
    (let! merged_content := merge_sections self file_list in
     write_text_file self output_filename (str_join [10%N] merged_content) ;;
     logger_info (u "Successfully merged " ++ str_of_nat (length file_list)
                  ++ u " files into " ++ output_filename))
    (fun e =>
       logger_error (u "Error merging files: ") e ;;
       raise e).

Definition search_text (self : TextProcessor) (text pattern : str) : M (list pyval) :=
  try_except
    (let! matches := re_findall pattern text in
     logger_info (u "Found " ++ str_of_nat (length matches)
                  ++ u " matches for pattern: " ++ pattern) ;;
     ret matches)
    (fun e =>
       logger_error (u "Error searching text: ") e ;;
       raise e).

Definition create_backup (self : TextProcessor) (filename : str) : M str :=
  try_except
    (let! content := read_text_file self filename in
     let! t := datetime_now in
     let timestamp := strftime t in
     let backup_filename := splitext_root filename ++ u "_" ++ timestamp ++ u ".bak" in
     write_text_file self backup_filename content ;;
     logger_info (u "Created backup: " ++ backup_filename) ;;
     ret backup_filename)
    (fun e =>
       logger_error (u "Error creating backup: ") e ;;
       raise e).

(** ** The text functions of the other scripts *)

(** [content.split(sep)] for a separator [sep] of one character: the pieces
    between its occurrences, empty ones included.  [cur] holds the piece
    being read. *)
Fixpoint split_at (sp : char) (cur : str) (s : str) : list str :=
  match s with
  | [] => [cur]
  | c :: s' =>
      if (c =? sp)%N then cur :: split_at sp [] s' else split_at sp (cur ++ [c]) s'
  end.

(** [s.lstrip()], [s.rstrip()] and [s.strip()]: without an argument it is
    whitespace that is stripped. *)
Fixpoint lstrip_space (s : str) : str :=
  match s with
  | [] => []
  | c :: s' => if isspace c then lstrip_space s' else s
  end.

Fixpoint rstrip_space (s : str) : str :=
  match s with
  | [] => []
  | c :: s' =>
      match rstrip_space s' with
      | [] => if isspace c then [] else [c]
      | t => c :: t
      end
  end.

Definition strip (s : str) : str := rstrip_space (lstrip_space s).

(** The dictionary [analyze_text_file] returns. *)
Record text_file_analysis := TextFileAnalysis
  { total_lines : nat;
    total_words : nat;
    total_characters : nat;
    average_words_per_line : Q }.

(** [analyze_text_file(content)] of [app.py] *)
Definition analyze_text_file (content : str) : M text_file_analysis :=
  let lines := split_at 10%N [] content in
  let words := split content in
  let chars := length content in
  let! average :=
    match lines with
    | [] => ret 0%Q
    | _ => truediv (length words) (length lines)
    end in
  ret {| total_lines := length lines;
         total_words := length words;
         total_characters := chars;
         average_words_per_line := average |}.

(** [clean_text(text)] of [helper_functions.py], on a string ([str(text)]
    is then [text] itself). *)
Definition clean_text (text : str) : str := strip text.

(** ** Vocabulary of the properties *)

(** *** Word frequencies *)

(** How often [w] occurs, and where it occurs first. *)
Definition occurrences (w : str) (words : list str) : nat :=
  length (filter (fun x => x = w) words).

Fixpoint first_index (w : str) (words : list str) : nat :=
  match words with
  | [] => 0
  | x :: rest => if decide (x = w) then 0 else S (first_index w rest)
  end.

(** [w1] comes before [w2] in the frequency table: it is more frequent,
    or as frequent and seen earlier. *)
Definition outranks (words : list str) (w1 w2 : str) : Prop :=
  occurrences w2 words < occurrences w1 words
  \/ (occurrences w1 words = occurrences w2 words
      /\ first_index w1 words < first_index w2 words).

(** The distinct words in the order of their first occurrence. *)
Definition firsts (words : list str) : list str :=
  foldl (fun acc w => if decide (w ∈ acc) then acc else acc ++ [w]) [] words.

(** [p] goes before [q]: larger count, or the same count and smaller
    rank; [rank] numbers the keys in their order before sorting. *)
Definition before (rank : list N -> nat) (p q : list N * nat) : Prop :=
  q.2 < p.2 \/ (p.2 = q.2 /\ rank p.1 < rank q.1).

(** *** Sentences *)

(** The sentence delimiters. *)
Definition is_delimiter (c : char) : bool :=
  ((c =? 46) || (c =? 33) || (c =? 63))%N.

(** From the spec's words, not from the code: the text is split at each
    maximal run of one or more delimiters, so consecutive delimiters are a
    single split point.  [cur] is the fragment being read, [in_run] tells
    that the previous character was a delimiter. *)
Fixpoint fragments_from (in_run : bool) (cur : str) (s : str) : list str :=
  match s with
  | [] => [cur]
  | c :: s' =>
      if is_delimiter c
      then (if in_run then fragments_from true [] s'
            else cur :: fragments_from true [] s')
      else fragments_from false (cur ++ [c]) s'
  end.

Definition sentence_fragments (text : str) : list str := fragments_from false [] text.

(** The length of the run of delimiters [s] starts with. *)
Fixpoint delimiter_run (s : str) : nat :=
  match s with
  | c :: s' => if is_delimiter c then S (delimiter_run s') else 0
  | [] => 0
  end.

(** The number of maximal runs of delimiters in [s]; [in_run] tells that
    the character before [s] was a delimiter.  And whether a text ends in a
    delimiter. *)
Fixpoint delimiter_runs (in_run : bool) (s : str) : nat :=
  match s with
  | [] => 0
  | c :: s' =>
      if is_delimiter c
      then (if in_run then 0 else 1) + delimiter_runs true s'
      else delimiter_runs false s'
  end.

Definition ends_in_delimiter (s : str) : bool :=
  match last s with Some c => is_delimiter c | None => false end.

(** What ["[.!?]+"] compiles to. *)
Definition sentence_set : regex := CharSet false [(46, 46); (33, 33); (63, 63)]%N.
Definition sentence_re : regex := Plus sentence_set.

(** *** Averages *)

(** The average length of the words: their total length over their number,
    0 when there is none. *)
Definition average_of (words : list (list N)) : Q :=
  match words with
  | [] => 0%Q
  | _ => Z.of_nat (sum_list (length <$> words)) # Pos.of_nat (length words)
  end.

(** *** Matches *)

(** The matches lie in the text from [from] on, one after the other
    without overlap. *)
Fixpoint in_order (from bound : nat) (ms : list re_match) : Prop :=
  match ms with
  | [] => True
  | mt :: ms' =>
      from <= m_start mt /\ m_start mt <= m_end mt /\ m_end mt <= bound
      /\ in_order (m_end mt) bound ms'
  end.

(** A matcher reads a prefix of the text: if it succeeds, then through
    its continuation, called on what is left after [n] characters. *)
Definition reads_prefix
    (body : list N -> nat -> gmap nat (nat * nat)
            -> (list N -> nat -> gmap nat (nat * nat) -> option (nat * gmap nat (nat * nat)))
            -> option (nat * gmap nat (nat * nat))) : Prop :=
  forall s pos mk k res,
    body s pos mk k = Some res ->
    exists n mk', n <= length s /\ k (drop n s) (pos + n) mk' = Some res.

(** *** Paths in a file system *)

(** Every directory on the way to [p] is there; one of them is a regular
    file; [os.path.exists(p)]. *)
Definition reachable (f : gmap (list N) node) (p : str) : bool :=
  forallb (fun d => bool_decide (f !! d = Some Dir)) (rev (ancestors p)).

Definition blocked (f : gmap (list N) node) (p : str) : bool :=
  existsb (fun d => match f !! d with Some (File _) | Some Binary => true | _ => false end)
          (rev (ancestors p)).

Definition path_exists (f : gmap (list N) node) (p : str) : bool :=
  reachable f p && bool_decide (is_Some (f !! p)).

(** The files [f'] are the files [f] and, possibly, new directories, all
    of them [among] the given paths. *)
Definition grows (among : list str) (f f' : gmap (list N) node) : Prop :=
  forall p, f' !! p = f !! p \/ (f !! p = None /\ f' !! p = Some Dir /\ p ∈ among).

(** *** Merged files *)

(** The section of a merged file for the file [name] read as [content]:
    the header line, the content and a line break. *)
Definition section_text (name content : str) : str :=
  u "--- " ++ name ++ u " ---" ++ [10%N] ++ content ++ [10%N].

(** *** Backup names *)

(** A decimal digit, as [\d] means it in the spec's pattern for the name. *)
Definition is_digit (c : char) : bool := ((48 <=? c) && (c <=? 57))%N.

(** *** Patterns on examples *)

(** [re.findall] and [re.split] on a pattern of the fragment. *)
Definition findall_of (pattern text : str) : option (list pyval) :=
  match re_compile pattern with
  | Compiled r groups => Some (findall r groups text)
  | _ => None
  end.

Definition split_of (pattern text : str) : option (list pyval) :=
  match re_compile pattern with
  | Compiled r groups => Some (re_split_compiled r groups text)
  | _ => None
  end.

(** *** Example worlds *)

(** The processor of [main()], with the default directories, and the world
    right after its construction in an empty working directory. *)
Definition processor : TextProcessor := Processor default_input_dir default_output_dir.

Definition fresh_world : world :=
  (init default_input_dir default_output_dir
        (empty_world (Datetime 2024 1 2 3 4 5))).2.

(** A world with one more file. *)
Definition with_file (p content : str) (w : world) : world :=
  World (<[p := File content]> (fs w)) (log w) (now w).

(** * Properties *)

(** ** The library models on examples *)

Example split_ex : split (u "  a a
b ") = [u "a"; u "a"; u "b"].
Proof. reflexivity. Qed.

Example most_common_ex :
  most_common 5 (Counter (split (u "b a c a b d e f g")))
  = [(u "b", 2); (u "a", 2); (u "c", 1); (u "d", 1); (u "e", 1)].
Proof. reflexivity. Qed.

Example re_compile_ex :
  re_compile (u "a|(b*)c") = Compiled (Alt (Lit 97) (Cat (Group 1 (Star (Lit 98))) (Lit 99)))%N 1
  /\ re_compile (u "[^a-c]?") = Compiled (Opt (CharSet true [(97, 99)]%N)) 0
  /\ re_compile (u "(") = PatternError /\ re_compile (u "a)") = PatternError
  /\ re_compile (u "*a") = PatternError /\ re_compile (u "a**") = PatternError
  /\ re_compile (u "[z-a]") = PatternError /\ re_compile (u "[]") = PatternError
  /\ re_compile (u "a{2}") = NotModelled /\ re_compile (u "a*?") = NotModelled
  /\ re_compile (u "(?:a)") = NotModelled /\ re_compile (u "\d") = NotModelled.
Proof. repeat split; reflexivity. Qed.

Example findall_ex :
  findall_of (u "a*") (u "baac") = Some [VStr []; VStr (u "aa"); VStr []; VStr []]
  /\ findall_of (u "(a)|b") (u "ab") = Some [VStr (u "a"); VStr []]
  /\ findall_of (u "(a|)*") (u "b") = Some [VStr []; VStr []]
  /\ findall_of (u "#+ .+") (u "# x
## yy") = Some [VStr (u "# x"); VStr (u "## yy")]
  /\ findall_of (u "a|ab") (u "abab") = Some [VStr (u "a"); VStr (u "a")].
Proof. repeat split; reflexivity. Qed.

Example re_split_ex :
  split_of (u "[.!?]+") (u "Hi. There!?") = Some [VStr (u "Hi"); VStr (u " There"); VStr []]
  /\ split_of (u "[.!?]+") (u "...") = Some [VStr []; VStr []]
  /\ split_of (u "[.!?]+") [] = Some [VStr []]
  /\ split_of (u "(a)|(b)") (u "xay") = Some [VStr (u "x"); VStr (u "a"); VNone; VStr (u "y")]
  /\ split_of (u "x*") (u "axb") = Some [VStr []; VStr (u "a"); VStr []; VStr (u "b"); VStr []].
Proof. repeat split; reflexivity. Qed.

Example path_join_ex :
  path_join (u "data/input") (u "a.txt") = u "data/input/a.txt"
  /\ path_join (u "data/input") (u "/etc/x") = u "/etc/x"
  /\ path_join (u "a/") (u "b") = u "a/b" /\ path_join [] (u "b") = u "b".
Proof. repeat split; reflexivity. Qed.

Example splitext_ex :
  splitext_root (u "a.txt") = u "a" /\ splitext_root (u ".bashrc") = u ".bashrc"
  /\ splitext_root (u "a.tar.gz") = u "a.tar" /\ splitext_root (u "d.x/f") = u "d.x/f"
  /\ splitext_root (u "..a.b") = u "..a" /\ splitext_root (u "a.") = u "a"
  /\ splitext_root (u "x/..y") = u "x/..y".
Proof. repeat split; reflexivity. Qed.

Example dirname_ex :
  dirname (u "data/output/x.txt") = u "data/output" /\ dirname (u "x.txt") = []
  /\ dirname (u "/x") = u "/" /\ dirname (u "a//b") = u "a".
Proof. repeat split; reflexivity. Qed.

Example plain_ex :
  plain (u "data/output/x.txt") = true /\ plain (u "/x") = true
  /\ plain (u "a//b") = false /\ plain (u "a/") = false /\ plain [] = false
  /\ plain (u "a/../b") = false /\ plain (u "./a") = false /\ plain (u "/") = false.
Proof. repeat split; reflexivity. Qed.

(** Names the operating system refuses are no paths of the model: a NUL, a
    lone surrogate, a component of more than 255 bytes. *)
Example plain_names_ex :
  plain (u "a" ++ [0%N] ++ u "b") = false /\ plain [55296%N] = false
  /\ plain (replicate 255 97%N) = true /\ plain (replicate 256 97%N) = false
  /\ plain (replicate 128 233%N) = false.
Proof. repeat split; vm_compute; reflexivity. Qed.

Example makedirs_ex :
  fs (makedirs (u "data/input") (empty_world (Datetime 2024 1 2 3 4 5))).2
  = <[u "data/input" := Dir]> (<[u "data" := Dir]> ∅).
Proof. vm_compute. reflexivity. Qed.

(** ** Word frequencies *)

Section WordFrequencies.

Implicit Types (w x : list N) (words : list (list N)) (d : list (list N * nat)).

Lemma occurrences_snoc w words x :
  occurrences w (words ++ [x])
  = occurrences w words + (if decide (x = w) then 1 else 0).
Proof.
  unfold occurrences. rewrite filter_app, length_app. f_equal.
  rewrite filter_cons, filter_nil. by case_decide.
Qed.

Lemma first_index_absent w words : w ∉ words -> first_index w words = length words.
Proof.
  induction words as [|x rest IH]; simpl; [done|].
  intros Hn. apply not_elem_of_cons in Hn as [Hne Hn].
  case_decide; [congruence|]. by rewrite IH.
Qed.

Lemma first_index_present w words x :
  w ∈ words -> first_index w (words ++ [x]) = first_index w words.
Proof.
  induction words as [|y rest IH]; simpl; [by intros ?%elem_of_nil|].
  intros Hin. case_decide; [done|].
  apply elem_of_cons in Hin as [->|Hin]; [done|]. by rewrite IH.
Qed.

Lemma first_index_lt w words : w ∈ words -> first_index w words < length words.
Proof.
  induction words as [|y rest IH]; simpl; [by intros ?%elem_of_nil|].
  intros Hin. case_decide; [lia|].
  apply elem_of_cons in Hin as [->|Hin]; [done|]. specialize (IH Hin). lia.
Qed.

Lemma firsts_snoc words x :
  firsts (words ++ [x])
  = if decide (x ∈ firsts words) then firsts words else firsts words ++ [x].
Proof. unfold firsts. by rewrite foldl_app. Qed.

Lemma elem_of_firsts w words : w ∈ firsts words <-> w ∈ words.
Proof.
  induction words as [|x words IH] using rev_ind; [done|].
  rewrite firsts_snoc. case_decide as Hx.
  - rewrite IH, elem_of_app, list_elem_of_singleton.
    split; [by left|]. intros [?| ->]; [done|]. by apply IH.
  - by rewrite !elem_of_app, IH.
Qed.

Lemma NoDup_firsts words : NoDup (firsts words).
Proof.
  induction words as [|x words IH] using rev_ind; [constructor|].
  rewrite firsts_snoc. case_decide as Hx; [done|].
  apply NoDup_app. split_and!; [done| |apply NoDup_singleton].
  intros y Hy ->%list_elem_of_singleton. done.
Qed.

Lemma first_index_new x words : x ∉ words -> first_index x (words ++ [x]) = length words.
Proof.
  induction words as [|y rest IH]; simpl; [by case_decide|].
  intros [Hne Hn]%not_elem_of_cons. case_decide; [congruence|]. by rewrite IH.
Qed.

Lemma firsts_in_order words :
  StronglySorted (fun a b => first_index a words < first_index b words) (firsts words).
Proof.
  induction words as [|x words IH] using rev_ind; [constructor|].
  assert (Hall : Forall (fun a => a ∈ words) (firsts words)).
  { apply Forall_forall. intros a. apply elem_of_firsts. }
  rewrite firsts_snoc. destruct (decide (x ∈ firsts words)) as [Hx|Hx].
  - revert IH Hall. generalize (firsts words). intros l Hs.
    induction Hs as [|a l Hs IHs Hfa]; intros Hall; [constructor|].
    apply Forall_cons in Hall as [Ha Hall]. constructor; [by apply IHs|].
    rewrite Forall_forall in Hfa, Hall. apply Forall_forall. intros b Hb.
    rewrite !first_index_present; auto.
  - rewrite elem_of_firsts in Hx.
    revert IH Hall. generalize (firsts words). intros l Hs.
    induction Hs as [|a l Hs IHs Hfa]; intros Hall; simpl.
    + repeat constructor.
    + apply Forall_cons in Hall as [Ha Hall].
      constructor; [by apply IHs|].
      rewrite Forall_forall in Hfa, Hall.
      apply Forall_app. split.
      * apply Forall_forall. intros b Hb. rewrite !first_index_present; auto.
      * apply Forall_singleton.
        rewrite first_index_present, first_index_new by done.
        by apply first_index_lt.
Qed.

(** [Counter] in closed form: each distinct word with its number of
    occurrences, in the order of first occurrence. *)
Lemma Counter_snoc words x : Counter (words ++ [x]) = counter_incr x (Counter words).
Proof. unfold Counter. by rewrite foldl_app. Qed.

Lemma counter_incr_tabulate (g : list N -> nat) x (l : list (list N)) :
  NoDup l -> (x ∉ l -> g x = 0) ->
  counter_incr x ((fun w => (w, g w)) <$> l)
  = (fun w => (w, if decide (w = x) then S (g w) else g w))
      <$> (if decide (x ∈ l) then l else l ++ [x]).
Proof.
  intros Hnd. induction Hnd as [|y l Hy Hnd IH]; intros Hg.
  - destruct (decide (x ∈ [])) as [[]%elem_of_nil|_]; simpl.
    rewrite decide_True by done. rewrite Hg; [done|apply not_elem_of_nil].
  - rewrite fmap_cons. simpl counter_incr.
    destruct (decide (y = x)) as [->|Hne].
    + rewrite decide_True by apply list_elem_of_here.
      rewrite fmap_cons, decide_True by done. f_equal.
      apply list_fmap_ext. intros i w Hw. destruct (decide (w = x)) as [->|]; [|done].
      exfalso. apply Hy. by eapply list_elem_of_lookup_2.
    + rewrite IH; last first.
      { intros Hin. apply Hg. apply not_elem_of_cons. split; [congruence|done]. }
      destruct (decide (x ∈ l)) as [Hin|Hin].
      * rewrite decide_True by (by apply list_elem_of_further).
        rewrite fmap_cons. by rewrite decide_False.
      * rewrite decide_False by (intros [?|?]%elem_of_cons; congruence).
        rewrite <- app_comm_cons, fmap_cons. by rewrite decide_False.
Qed.

Lemma occurrences_absent w words : w ∉ words -> occurrences w words = 0.
Proof.
  unfold occurrences. induction words as [|y rest IH]; [done|].
  intros [Hne Hn]%not_elem_of_cons. rewrite filter_cons.
  case_decide; [congruence|]. by apply IH.
Qed.

Lemma Counter_closed words :
  Counter words = (fun w => (w, occurrences w words)) <$> firsts words.
Proof.
  induction words as [|x words IH] using rev_ind; [done|].
  rewrite Counter_snoc, IH, firsts_snoc.
  rewrite counter_incr_tabulate.
  - apply list_fmap_ext. intros i w Hw. f_equal.
    rewrite occurrences_snoc. repeat case_decide; subst; try congruence; lia.
  - apply NoDup_firsts.
  - rewrite elem_of_firsts. apply occurrences_absent.
Qed.

(** *** The stable sort *)

Lemma insert_desc_perm p d : insert_desc p d ≡ₚ p :: d.
Proof.
  induction d as [|q d IH]; simpl; [done|].
  destruct (q.2 <=? p.2); [done|]. rewrite IH. apply Permutation_swap.
Qed.

Lemma sorted_desc_perm d : sorted_desc d ≡ₚ d.
Proof.
  induction d as [|q d IH]; simpl; [done|].
  by rewrite insert_desc_perm, IH.
Qed.

Lemma insert_desc_sorted rank p d :
  StronglySorted (before rank) d ->
  Forall (fun q => rank p.1 < rank q.1) d ->
  StronglySorted (before rank) (insert_desc p d).
Proof.
  induction 1 as [|q d Hs IH Hq]; intros Hp; simpl.
  - repeat constructor.
  - apply Forall_cons in Hp as [Hpq Hp].
    destruct (Nat.leb_spec (q.2) (p.2)) as [Hle|Hlt].
    + constructor; [by constructor|].
      constructor.
      * unfold before. destruct (decide (q.2 = p.2)); [right|left]; lia.
      * rewrite Forall_forall in Hq, Hp. apply Forall_forall. intros r Hr.
        specialize (Hq r Hr). specialize (Hp r Hr). unfold before in *.
        destruct (decide (r.2 = p.2)); [right|left]; lia.
    + constructor; [by apply IH|].
      rewrite insert_desc_perm. constructor; [|done].
      left. lia.
Qed.

Lemma sorted_desc_sorted rank d :
  StronglySorted (fun p q => rank p.1 < rank q.1) d ->
  StronglySorted (before rank) (sorted_desc d).
Proof.
  induction 1 as [|p d Hs IH Hp]; simpl; [constructor|].
  apply insert_desc_sorted; [done|]. by rewrite sorted_desc_perm.
Qed.

Lemma sorted_take_drop {A} (R : A -> A -> Prop) n (l : list A) :
  StronglySorted R l ->
  StronglySorted R (take n l) /\ (forall a b, a ∈ take n l -> b ∈ drop n l -> R a b).
Proof.
  intros Hs. rewrite <- (take_drop n l) in Hs.
  split; [by eapply StronglySorted_app_1_l|].
  intros a b Ha Hb. by eapply StronglySorted_app_1_elem_of.
Qed.

(** The table [most_common n] returns, for the words of a text. *)
Lemma most_common_spec n words :
  let mc := most_common n (Counter words) in
  (forall p, p ∈ mc -> p.1 ∈ words /\ p.2 = occurrences p.1 words)
  /\ StronglySorted (fun p q => outranks words p.1 q.1) mc
  /\ length mc = n `min` size (list_to_set words : gset (list N))
  /\ (forall w, w ∈ words -> w ∉ mc.*1 ->
      forall p, p ∈ mc -> outranks words p.1 w).
Proof.
  intros mc.
  set (rank := fun w => first_index w words).
  assert (Hmem : forall p, p ∈ sorted_desc (Counter words) <->
                   p.1 ∈ words /\ p.2 = occurrences p.1 words).
  { intros [w c]. rewrite sorted_desc_perm, Counter_closed, list_elem_of_fmap. simpl.
    split.
    - intros (w' & Heq & Hw). simplify_eq. split; [by apply elem_of_firsts|done].
    - intros [Hw ->]. exists w. by rewrite elem_of_firsts. }
  assert (Hsort : StronglySorted (before rank) (sorted_desc (Counter words))).
  { apply sorted_desc_sorted. rewrite Counter_closed.
    generalize (firsts_in_order words). generalize (firsts words).
    induction 1 as [|a l Hs IH Ha]; simpl; constructor; [done|].
    by apply Forall_fmap. }
  destruct (sorted_take_drop (before rank) n _ Hsort) as [Htake Hcross].
  fold (most_common n (Counter words)) in Htake, Hcross. fold mc in Htake, Hcross.
  assert (Hin : forall p, p ∈ mc -> p.1 ∈ words /\ p.2 = occurrences p.1 words).
  { intros p Hp. apply Hmem. unfold mc, most_common in Hp.
    apply elem_of_take in Hp as (i & Hi & _). by eapply list_elem_of_lookup_2. }
  assert (Hconv : forall p q, p.2 = occurrences p.1 words -> q.2 = occurrences q.1 words ->
                    before rank p q -> outranks words p.1 q.1).
  { intros p q Hp Hq. unfold before, outranks, rank. rewrite Hp, Hq. tauto. }
  split_and!.
  - done.
  - clear Hcross. revert Hin. induction Htake as [|a l Hs IH Ha]; intros Hin;
      constructor.
    + apply IH. intros p Hp. apply Hin. by right.
    + rewrite Forall_forall in Ha. apply Forall_forall. intros q Hq.
      apply Hconv; [apply Hin; by left|apply Hin; by right|by apply Ha].
  - unfold mc, most_common. rewrite length_take. f_equal.
    rewrite sorted_desc_perm, Counter_closed, length_fmap.
    rewrite <- (size_list_to_set (C := gset (list N))) by apply NoDup_firsts.
    f_equal. apply set_eq. intros w. by rewrite !elem_of_list_to_set, elem_of_firsts.
  - intros w Hw Hnot p Hp.
    assert (Hwd : (w, occurrences w words) ∈ drop n (sorted_desc (Counter words))).
    { assert (Hall : (w, occurrences w words) ∈ sorted_desc (Counter words))
        by (by apply Hmem).
      rewrite <- (take_drop n (sorted_desc (Counter words))) in Hall.
      apply elem_of_app in Hall as [Ht|Hd]; [|done].
      exfalso. apply Hnot. apply list_elem_of_fmap. by exists (w, occurrences w words). }
    apply (Hconv p (w, occurrences w words)); [by apply Hin|done|by apply Hcross].
Qed.

End WordFrequencies.

(** ** Sentences *)

Section Sentences.

Implicit Types (s pre text : list N) (c : N).

Lemma compile_sentence_pattern : re_compile (u "[.!?]+") = Compiled sentence_re 0.
Proof. reflexivity. Qed.

Lemma in_delimiters c : in_ranges c [(46, 46); (33, 33); (63, 63)]%N = is_delimiter c.
Proof.
  unfold in_ranges, is_delimiter. simpl.
  repeat match goal with
         | |- context [(?a <=? ?b)%N] => destruct (N.leb_spec a b)
         | |- context [(?a =? ?b)%N] => destruct (N.eqb_spec a b)
         end; simpl; try reflexivity; lia.
Qed.

Lemma delimiter_run_le s : delimiter_run s <= length s.
Proof. induction s as [|c s IH]; simpl; [lia|]. destruct (is_delimiter c); lia. Qed.

(** The repeat reads the whole run when its continuation accepts there. *)
Lemma match_repeat_delimiters n last s pos mk
    (k : list N -> nat -> gmap nat (nat * nat) -> option (nat * gmap nat (nat * nat))) :
  delimiter_run s <= n ->
  (forall q, last = Some q -> q < pos) ->
  (forall s' e mk', pos <= e -> k s' e mk' = Some (e, mk')) ->
  match_repeat (match_re sentence_set) n last s pos mk k = Some (pos + delimiter_run s, mk).
Proof.
  revert last s pos. induction n as [|n IH]; intros last s pos Hn Hlast Hk.
  - simpl. assert (delimiter_run s = 0) as -> by lia. rewrite Hk by lia. f_equal. f_equal. lia.
  - cbn [match_repeat]. rewrite bool_decide_eq_false_2; last first.
    { intros Heq. specialize (Hlast _ Heq). lia. }
    destruct s as [|c s]; unfold sentence_set at 1; cbn [match_re delimiter_run].
    + rewrite Hk by lia. do 2 f_equal. lia.
    + rewrite in_delimiters. simpl in Hn. destruct (is_delimiter c); cbn [xorb].
      * rewrite IH.
        -- do 2 f_equal. lia.
        -- lia.
        -- intros q [= <-]. lia.
        -- intros s' e mk' He. apply Hk. lia.
      * rewrite Hk by lia. do 2 f_equal. lia.
Qed.

Lemma match_sentence_re s pos mk
    (k : list N -> nat -> gmap nat (nat * nat) -> option (nat * gmap nat (nat * nat))) :
  (forall s' e mk', S pos <= e -> k s' e mk' = Some (e, mk')) ->
  match_re sentence_re s pos mk k
  = match s with
    | c :: s' => if is_delimiter c then Some (S pos + delimiter_run s', mk) else None
    | [] => None
    end.
Proof.
  intros Hk. destruct s as [|c s]; unfold sentence_re, sentence_set at 1;
    cbn [match_re]; [done|].
  rewrite in_delimiters. destruct (is_delimiter c); cbn [xorb]; [|done].
  apply match_repeat_delimiters; [|done|done].
  pose proof (delimiter_run_le s). lia.
Qed.

Lemma scan_sentence_re s pos :
  scan sentence_re s pos
  = match s with
    | c :: s' =>
        if is_delimiter c then Some (Match pos (S pos + delimiter_run s') ∅)
        else scan sentence_re s' (S pos)
    | [] => None
    end.
Proof.
  destruct s as [|c s]; cbn [scan]; rewrite match_sentence_re by done; [done|].
  by destruct (is_delimiter c).
Qed.

Lemma search_sentence_re s pos must_advance :
  search sentence_re s pos must_advance = scan sentence_re s pos.
Proof.
  rewrite scan_sentence_re. unfold search. rewrite match_sentence_re.
  - destruct s as [|c s]; [done|]. by destruct (is_delimiter c).
  - intros s' e mk' He. rewrite (proj2 (Nat.eqb_neq e pos)) by lia.
    by rewrite andb_false_r.
Qed.

Lemma scan_sentence_bounds s pos mt :
  scan sentence_re s pos = Some mt -> pos <= m_start mt /\ m_start mt < m_end mt.
Proof.
  revert pos. induction s as [|c s IH]; intros pos; rewrite scan_sentence_re; [done|].
  destruct (is_delimiter c).
  - intros [= <-]. simpl. lia.
  - intros H%IH. lia.
Qed.

(** The scanner steps over a character that is no delimiter, and takes a
    whole run at a delimiter. *)
Lemma matches_from_skip n c s pos b1 b2 :
  is_delimiter c = false ->
  matches_from n sentence_re (c :: s) pos b1 = matches_from n sentence_re s (S pos) b2.
Proof.
  intros Hc. destruct n as [|n]; [done|]. cbn [matches_from].
  rewrite !search_sentence_re, (scan_sentence_re (c :: s)), Hc.
  destruct (scan sentence_re s (S pos)) as [mt|] eqn:Hscan; [|done].
  apply scan_sentence_bounds in Hscan.
  replace (m_end mt - pos) with (S (m_end mt - S pos)) by lia. done.
Qed.

Lemma matches_from_run n c s pos b :
  is_delimiter c = true ->
  matches_from (S n) sentence_re (c :: s) pos b
  = Match pos (S pos + delimiter_run s) ∅
      :: matches_from n sentence_re (drop (delimiter_run s) s) (S pos + delimiter_run s) false.
Proof.
  intros Hc. cbn [matches_from].
  rewrite search_sentence_re, scan_sentence_re, Hc. cbn [m_end m_start].
  replace (S pos + delimiter_run s - pos) with (S (delimiter_run s)) by lia.
  rewrite (proj2 (Nat.eqb_neq _ _)) by lia. done.
Qed.

Lemma fragments_after_run s :
  fragments_from true [] s = fragments_from false [] (drop (delimiter_run s) s).
Proof.
  induction s as [|c s IH]; [done|]. simpl.
  destruct (is_delimiter c) eqn:Hc; simpl; [done|]. by rewrite Hc.
Qed.

Lemma slice_prefix pre s last :
  last <= length pre -> slice (pre ++ s) last (length pre) = drop last pre.
Proof.
  intros Hl. unfold slice. rewrite drop_app_le by done.
  rewrite take_app_le by (rewrite length_drop; lia).
  apply take_ge. rewrite length_drop. lia.
Qed.

Lemma slice_rest pre s last :
  last <= length pre -> slice (pre ++ s) last (length (pre ++ s)) = drop last pre ++ s.
Proof.
  intros Hl. unfold slice. rewrite drop_app_le by done.
  apply take_ge. rewrite !length_app, length_drop. lia.
Qed.

(** [re.split] and the spec's splitter agree, from any point of the text. *)
Lemma split_pieces_fragments m : forall s n pre last b,
  length s <= m -> length s < n -> last <= length pre ->
  split_pieces 0 (pre ++ s) last (matches_from n sentence_re s (length pre) b)
  = VStr <$> fragments_from false (drop last pre) s.
Proof.
  induction m as [|m IH]; intros s n pre last b Hm Hn Hl.
  - destruct s; [|simpl in Hm; lia]. destruct n as [|n]; [lia|].
    cbn [matches_from]. rewrite search_sentence_re, scan_sentence_re.
    cbn [split_pieces fragments_from]. rewrite slice_rest by done.
    by rewrite app_nil_r.
  - destruct s as [|c s].
    { apply (IH [] n pre last b); simpl; lia. }
    simpl in Hm, Hn. destruct (is_delimiter c) eqn:Hc.
    + destruct n as [|n]; [lia|].
      rewrite matches_from_run by done. cbn [split_pieces fragments_from].
      rewrite Hc. cbn [seq]. rewrite fmap_nil. cbn [app]. rewrite slice_prefix by done.
      rewrite fmap_cons. f_equal.
      rewrite fragments_after_run.
      pose proof (delimiter_run_le s) as Hrun.
      set (pre' := pre ++ c :: take (delimiter_run s) s).
      assert (Hlen : length pre' = S (length pre) + delimiter_run s).
      { unfold pre'. rewrite length_app. simpl. rewrite length_take. lia. }
      assert (Htext : pre ++ c :: s = pre' ++ drop (delimiter_run s) s).
      { unfold pre'. rewrite <- app_assoc. simpl. by rewrite take_drop. }
      rewrite Htext, <- Hlen. cbn [m_end].
      rewrite (IH (drop (delimiter_run s) s) n pre' (length pre') false).
      * by rewrite drop_all.
      * rewrite length_drop. lia.
      * rewrite length_drop. lia.
      * done.
    + rewrite (matches_from_skip n c s (length pre) b b) by done.
      cbn [fragments_from]. rewrite Hc.
      replace (pre ++ c :: s) with ((pre ++ [c]) ++ s) by (by rewrite <- app_assoc).
      replace (S (length pre)) with (length (pre ++ [c])) by (rewrite length_app; simpl; lia).
      rewrite (IH s n (pre ++ [c]) last b); [|lia|lia|rewrite length_app; lia].
      by rewrite drop_app_le.
Qed.

Lemma re_split_sentences text :
  re_split_compiled sentence_re 0 text = VStr <$> sentence_fragments text.
Proof.
  unfold re_split_compiled, finditer.
  apply (split_pieces_fragments (length text) text _ [] 0 false); simpl; lia.
Qed.

Lemma fragments_from_length b cur s : 1 <= length (fragments_from b cur s).
Proof.
  revert b cur. induction s as [|c s IH]; intros b cur; simpl; [lia|].
  destruct (is_delimiter c); [destruct b|]; simpl; auto with lia.
Qed.

(** After a final delimiter the last fragment is the empty one. *)
Lemma fragments_from_final b cur s c :
  is_delimiter c = true -> last (fragments_from b cur (s ++ [c])) = Some [].
Proof.
  intros Hc. revert b cur. induction s as [|x s IH]; intros b cur; simpl.
  - rewrite Hc. by destruct b.
  - destruct (is_delimiter x); [destruct b|]; rewrite ?last_cons, IH; done.
Qed.

(** The fragments are one more than the runs of delimiters, so a
    delimiter put after a text adds a fragment unless the text ends in
    one. *)
Lemma fragments_from_runs b cur s :
  length (fragments_from b cur s) = S (delimiter_runs b s).
Proof.
  revert b cur. induction s as [|c s IH]; intros b cur; cbn [fragments_from delimiter_runs];
    [done|].
  destruct (is_delimiter c); [|apply IH].
  destruct b; cbn [length]; rewrite IH; lia.
Qed.

Lemma delimiter_runs_snoc b s c :
  is_delimiter c = true ->
  delimiter_runs b (s ++ [c])
  = delimiter_runs b s
    + (if match last s with Some x => is_delimiter x | None => b end then 0 else 1).
Proof.
  intros Hc. revert b. induction s as [|x s IH]; intros b; cbn [app delimiter_runs].
  - rewrite Hc. cbn [last]. destruct b; lia.
  - rewrite last_cons. destruct (is_delimiter x) eqn:Hx; rewrite IH;
      destruct (last s) as [y|]; rewrite ?Hx; lia.
Qed.

Lemma delimiter_runs_pos s :
  Exists (fun c => is_delimiter c = true) s -> 1 <= delimiter_runs false s.
Proof.
  induction 1 as [c s Hc|c s _ IH]; cbn [delimiter_runs].
  - rewrite Hc. lia.
  - destruct (is_delimiter c); lia.
Qed.

End Sentences.

(** ** [analyze_text] *)

Section Analysis.

Variable self : TextProcessor.

(** [analyze_text] returns its dictionary and logs one INFO record. *)
Lemma analyze_text_run text w :
  analyze_text self text w
  = (Return {| word_count := length (split text);
               character_count := length text;
               sentence_count := length (re_split_compiled sentence_re 0 text);
               average_word_length := average_of (split text);
               most_common_words := most_common 5 (Counter (split text)) |},
     World (fs w) (log w ++ [Log INFO (u "Text analysis completed successfully") None])
           (now w)).
Proof.
  unfold analyze_text, try_except, bind, re_split, with_pattern.
  rewrite compile_sentence_pattern. unfold ret at 1.
  destruct (split text) as [|word words]; reflexivity.
Qed.

(** C1: [most_common_words] lists the (at most five) most frequent
    distinct words of the text with their counts: every entry is a word of
    the text with its number of occurrences; the entries are in descending
    count order, equal counts in order of first appearance (so no word is
    listed twice); there are [min 5 d] of them for [d] distinct words; and
    every word left out ranks after every word listed.  On ["a a b"] the
    result has [word_count = 3] and the table [("a", 2); ("b", 1)]. *)
Theorem most_common_words_spec :
  (forall text w, exists a w',
      analyze_text self text w = (Return a, w')
      /\ (forall p, p ∈ most_common_words a ->
            p.1 ∈ split text /\ p.2 = occurrences p.1 (split text))
      /\ StronglySorted (fun p q => outranks (split text) p.1 q.1) (most_common_words a)
      /\ length (most_common_words a)
         = 5 `min` size (list_to_set (split text) : gset (list N))
      /\ (forall word, word ∈ split text -> word ∉ (most_common_words a).*1 ->
            forall p, p ∈ most_common_words a -> outranks (split text) p.1 word))
  /\ (forall w, exists a w',
        analyze_text self (u "a a b") w = (Return a, w')
        /\ word_count a = 3
        /\ most_common_words a = [(u "a", 2); (u "b", 1)]).
Proof.
  split.
  - intros text w. eexists _, _. split; [apply analyze_text_run|].
    cbn [most_common_words]. apply most_common_spec.
  - intros w. eexists _, _. split; [apply analyze_text_run|]. split; reflexivity.
Qed.

(** C6: [sentence_count] is the number of fragments obtained by splitting
    the text at the maximal runs of [.], [!] and [?]. *)
Theorem sentence_count_splits_on_runs text w :
  exists a w',
    analyze_text self text w = (Return a, w')
    /\ sentence_count a = length (sentence_fragments text).
Proof.
  eexists _, _. split; [apply analyze_text_run|].
  cbn [sentence_count]. by rewrite re_split_sentences, length_fmap.
Qed.

(** C7: on the empty text the counts are 0, the average is 0 and the table
    is empty; in general the average is 0 when there is no word, and
    otherwise the sum of the word lengths divided by the word count. *)
Theorem average_word_length_spec :
  (forall w, exists a w',
      analyze_text self [] w = (Return a, w')
      /\ word_count a = 0 /\ character_count a = 0
      /\ average_word_length a = 0%Q /\ most_common_words a = [])
  /\ (forall text w, exists a w',
        analyze_text self text w = (Return a, w')
        /\ word_count a = length (split text)
        /\ (word_count a = 0 -> average_word_length a = 0%Q)
        /\ (word_count a <> 0 ->
            Qeq (average_word_length a)
                (inject_Z (Z.of_nat (sum_list (length <$> split text)))
                 / inject_Z (Z.of_nat (word_count a))))).
Proof.
  split.
  - intros w. eexists _, _. split; [apply analyze_text_run|]. repeat split.
  - intros text w. eexists _, _. split; [apply analyze_text_run|].
    cbn [word_count average_word_length]. split; [done|].
    destruct (split text) as [|word words]; simpl length; split; try done.
    intros _. unfold average_of. rewrite Qmake_Qdiv.
    replace (Z.pos (Pos.of_nat (length (word :: words))))
      with (Z.of_nat (S (length words))) by (simpl length; lia).
    reflexivity.
Qed.

(** C9: on every text [analyze_text] returns a result; its handler is not
    entered, the only record logged is the INFO one. *)
Theorem analyze_text_succeeds text w :
  exists a,
    analyze_text self text w
    = (Return a,
       World (fs w) (log w ++ [Log INFO (u "Text analysis completed successfully") None])
             (now w)).
Proof. eexists. apply analyze_text_run. Qed.

(** C10: the sentence count is at least 1: it is one more than the number
    of runs of delimiters.  When the text ends in a delimiter the list
    [re.split] returned, whose length is the count, ends with the empty
    fragment, and that fragment is counted: the count is at least 2, and
    one more than the count of the text before that delimiter unless this
    text ends in a delimiter itself. *)
Theorem sentence_count_at_least_one text w :
  exists a w' sentences,
    analyze_text self text w = (Return a, w')
    /\ re_split (u "[.!?]+") text w = (Return sentences, w)
    /\ sentence_count a = length sentences
    /\ 1 <= sentence_count a
    /\ sentence_count a = S (delimiter_runs false text)
    /\ (forall body c, text = body ++ [c] -> is_delimiter c = true ->
          last sentences = Some (VStr [])
          /\ 2 <= sentence_count a
          /\ exists b wb,
               analyze_text self body w = (Return b, wb)
               /\ sentence_count a
                  = if ends_in_delimiter body then sentence_count b
                    else S (sentence_count b)).
Proof.
  eexists _, _, _. split; [apply analyze_text_run|]. split.
  { unfold re_split, with_pattern. rewrite compile_sentence_pattern. reflexivity. }
  cbn [sentence_count]. rewrite re_split_sentences, length_fmap. split_and!.
  - done.
  - apply fragments_from_length.
  - apply fragments_from_runs.
  - intros body c -> Hc. unfold sentence_fragments. split_and!.
    + rewrite fmap_last. by rewrite fragments_from_final.
    + rewrite fragments_from_runs.
      assert (1 <= delimiter_runs false (body ++ [c])); [|lia].
      apply delimiter_runs_pos, Exists_app. right. by constructor.
    + eexists _, _. split; [apply analyze_text_run|]. cbn [sentence_count].
      rewrite re_split_sentences, length_fmap. unfold sentence_fragments.
      rewrite !fragments_from_runs, delimiter_runs_snoc by done.
      unfold ends_in_delimiter. destruct (last body) as [x|]; [destruct (is_delimiter x)|]; lia.
Qed.

End Analysis.

(** ** Matches in general *)

Section Matches.

Implicit Types (s text : list N) (r : regex) (mk : gmap nat (nat * nat)).

Lemma reads_nothing s pos mk res
    (k : list N -> nat -> gmap nat (nat * nat) -> option (nat * gmap nat (nat * nat))) :
  k s pos mk = Some res ->
  exists n mk', n <= length s /\ k (drop n s) (pos + n) mk' = Some res.
Proof. intros H. exists 0, mk. rewrite Nat.add_0_r. split; [lia|done]. Qed.

Lemma reads_one x s pos mk res
    (k : list N -> nat -> gmap nat (nat * nat) -> option (nat * gmap nat (nat * nat))) :
  k s (S pos) mk = Some res ->
  exists n mk', n <= length (x :: s) /\ k (drop n (x :: s)) (pos + n) mk' = Some res.
Proof.
  intros H. exists 1, mk. rewrite Nat.add_1_r. split; [simpl; lia|done].
Qed.

Lemma reads_then s pos res n mk
    (k : list N -> nat -> gmap nat (nat * nat) -> option (nat * gmap nat (nat * nat))) :
  n <= length s ->
  (exists n' mk', n' <= length (drop n s)
                  /\ k (drop n' (drop n s)) (pos + n + n') mk' = Some res) ->
  exists n' mk', n' <= length s /\ k (drop n' s) (pos + n') mk' = Some res.
Proof.
  intros Hn (n' & mk' & Hn' & Hk). exists (n + n'), mk'.
  rewrite length_drop in Hn'. rewrite drop_drop, Nat.add_assoc in *.
  split; [lia|done].
Qed.

Lemma match_repeat_reads body fuel last : reads_prefix body ->
  reads_prefix (match_repeat body fuel last).
Proof.
  intros Hbody. revert last. induction fuel as [|fuel IH]; intros last s pos mk k res;
    cbn [match_repeat].
  - apply reads_nothing.
  - case_bool_decide; [apply reads_nothing|].
    destruct (body s pos mk _) as [res'|] eqn:Hiter; [|apply reads_nothing].
    intros [= ->]. apply Hbody in Hiter as (n & mk1 & Hn & Hrest).
    apply (reads_then s pos res n mk1 k Hn). by apply IH in Hrest.
Qed.

Lemma match_re_reads r : reads_prefix (match_re r).
Proof.
  induction r as [|c| |negate ranges| | |r1 IH1 r2 IH2|r1 IH1 r2 IH2|r1 IH1|r1 IH1|r1 IH1|i r1 IH1];
    intros s pos mk k res; cbn [match_re].
  - apply reads_nothing.
  - destruct s as [|x s]; [done|]. destruct (x =? c)%N; [apply reads_one|done].
  - destruct s as [|x s]; [done|]. destruct (x =? 10)%N; [done|apply reads_one].
  - destruct s as [|x s]; [done|].
    destruct (xorb negate (in_ranges x ranges)); [apply reads_one|done].
  - destruct (pos =? 0); [apply reads_nothing|done].
  - destruct s as [|x [|y s]]; [apply reads_nothing| |done].
    destruct (x =? 10)%N; [apply reads_nothing|done].
  - intros (n & mk1 & Hn & Hrest)%IH1.
    apply (reads_then s pos res n mk1 k Hn). by apply IH2 in Hrest.
  - destruct (match_re r1 s pos mk k) as [res'|] eqn:Hleft.
    + intros [= ->]. by apply IH1 in Hleft.
    + apply IH2.
  - by apply match_repeat_reads.
  - intros (n & mk1 & Hn & Hrest)%IH1.
    apply (reads_then s pos res n mk1 k Hn).
    by apply match_repeat_reads in Hrest.
  - destruct (match_re r1 s pos mk k) as [res'|] eqn:Hleft.
    + intros [= ->]. by apply IH1 in Hleft.
    + apply reads_nothing.
  - intros (n & mk1 & Hn & Hrest)%IH1. by exists n, (<[i := (pos, pos + n)]> mk1).
Qed.

Lemma scan_extent r s pos mt :
  scan r s pos = Some mt ->
  pos <= m_start mt /\ m_start mt <= m_end mt /\ m_end mt <= pos + length s.
Proof.
  revert pos. induction s as [|x s IH]; intros pos; cbn [scan].
  - destruct (match_re r [] pos ∅ _) as [[e mk]|] eqn:Hm; [|done].
    intros [= <-]. apply match_re_reads in Hm as (n & mk' & Hn & [= <- _]).
    simpl in *. lia.
  - destruct (match_re r (x :: s) pos ∅ _) as [[e mk]|] eqn:Hm.
    + intros [= <-]. apply match_re_reads in Hm as (n & mk' & Hn & [= <- _]).
      simpl in *. lia.
    + intros H%IH. simpl. lia.
Qed.

Lemma search_extent r s pos b mt :
  search r s pos b = Some mt ->
  pos <= m_start mt /\ m_start mt <= m_end mt /\ m_end mt <= pos + length s.
Proof.
  unfold search.
  destruct (match_re r s pos ∅ _) as [[e mk]|] eqn:Hm.
  - intros [= <-]. apply match_re_reads in Hm as (n & mk' & Hn & Hk).
    destruct (b && (pos + n =? pos)); [done|]. injection Hk as <- _. simpl. lia.
  - destruct s as [|x s]; [done|]. intros H%scan_extent. simpl. lia.
Qed.

Lemma matches_from_in_order fuel r s pos b :
  in_order pos (pos + length s) (matches_from fuel r s pos b).
Proof.
  revert s pos b. induction fuel as [|fuel IH]; intros s pos b; cbn [matches_from];
    [done|].
  destruct (search r s pos b) as [mt|] eqn:Hs; [|done].
  apply search_extent in Hs as (H1 & H2 & H3). cbn [in_order]. split_and!; try done.
  specialize (IH (drop (m_end mt - pos) s) (m_end mt) (m_end mt =? m_start mt)).
  rewrite length_drop in IH.
  by replace (m_end mt + (length s - (m_end mt - pos))) with (pos + length s) in IH by lia.
Qed.

(** For a pattern without groups [search_text] returns the texts of the
    successive matches, which follow one another in the text. *)
Lemma search_text_without_groups self text pattern r w :
  re_compile pattern = Compiled r 0 ->
  (search_text self text pattern w).1
  = Return ((fun mt => VStr (slice text (m_start mt) (m_end mt))) <$> finditer r text)
  /\ in_order 0 (length text) (finditer r text).
Proof.
  intros Hr. split.
  - cbv [search_text try_except bind re_findall with_pattern ret logger_info].
    rewrite Hr. reflexivity.
  - exact (matches_from_in_order _ r text 0 false).
Qed.

End Matches.

(** ** [search_text] *)

(** The spec's example: a pattern without groups yields the matched texts. *)
Example search_text_print w :
  (search_text processor (u "print(1) print(2)") (u "print\([^)]+\)") w).1
  = Return [VStr (u "print(1)"); VStr (u "print(2)")].
Proof. reflexivity. Qed.

(** C2, at patterns with groups: [re.findall] returns the text of the
    group, or the tuple of the groups, not the matched substring ["ab"]. *)
Theorem search_text_returns_groups w :
  (search_text processor (u "ab") (u "(a)(b)") w).1 = Return [VTuple [u "a"; u "b"]]
  /\ (search_text processor (u "ab") (u "(a)b") w).1 = Return [VStr (u "a")]
  /\ (search_text processor (u "ab") (u "ab") w).1 = Return [VStr (u "ab")].
Proof. repeat split; reflexivity. Qed.

(** ** The file helpers *)

(** Resolving the directories on the way to a path leaves the world as it
    is; it succeeds exactly when they are all there, and fails with
    [NotADirectoryError] only at a regular file. *)
Lemma walk_spec f p dirs w :
  match walk f p dirs w with
  | (Return _, w') =>
      w' = w /\ forallb (fun d => bool_decide (f !! d = Some Dir)) dirs = true
  | (Raise e, w') =>
      w' = w /\ forallb (fun d => bool_decide (f !! d = Some Dir)) dirs = false
      /\ (e = FileNotFoundError p
          \/ existsb (fun d => match f !! d with
                               | Some (File _) | Some Binary => true
                               | _ => false
                               end) dirs = true)
  | (Unmodelled, _) => False
  end.
Proof.
  induction dirs as [|d dirs IH]; cbn [walk forallb existsb]; [done|].
  destruct (f !! d) as [[|content|]|]; cbn [orb].
  - by rewrite bool_decide_eq_true_2 by done.
  - split_and!; [done|done|by right].
  - split_and!; [done|done|by right].
  - split_and!; [done|done|by left].
Qed.

Lemma resolve_parent_reachable f p w :
  reachable f p = true -> resolve_parent f p w = (Return tt, w).
Proof.
  intros H. unfold resolve_parent, reachable in *.
  pose proof (walk_spec f p (rev (ancestors p)) w) as Hw.
  destruct (walk f p _ w) as [[[]|e|] w']; [|destruct Hw as (_ & Hw & _)|done].
  - by destruct Hw as [-> _].
  - congruence.
Qed.

Lemma resolve_parent_unreachable f p w :
  reachable f p = false ->
  exists e, resolve_parent f p w = (Raise e, w)
            /\ (blocked f p = false -> e = FileNotFoundError p).
Proof.
  intros H. unfold resolve_parent, reachable, blocked in *.
  pose proof (walk_spec f p (rev (ancestors p)) w) as Hw.
  destruct (walk f p _ w) as [[[]|e|] w']; [destruct Hw; congruence| |done].
  destruct Hw as (-> & _ & He). exists e. split; [done|].
  intros Hb. destruct He as [->|He]; [done|congruence].
Qed.

(** The name [create_backup] returns: the name without its extension, the
    time of the call as eight digits, [_] and six digits, and [.bak]. *)
Lemma zfill_digits width n :
  length (zfill width n) = width /\ forallb is_digit (zfill width n) = true.
Proof.
  revert n. induction width as [|width IH]; intros n; cbn [zfill]; [done|].
  destruct (IH (n / 10)) as [Hlen Hdig]. rewrite length_app, forallb_app, Hlen, Hdig.
  split; [simpl; lia|]. simpl. rewrite andb_true_r.
  pose proof (Nat.mod_upper_bound n 10). unfold is_digit.
  apply andb_true_iff. split; apply N.leb_le; lia.
Qed.

Lemma strftime_shape t :
  exists date time,
    strftime t = date ++ u "_" ++ time
    /\ length date = 8 /\ length time = 6
    /\ forallb is_digit date = true /\ forallb is_digit time = true.
Proof.
  exists (zfill 4 (year t) ++ zfill 2 (month t) ++ zfill 2 (day t)),
         (zfill 2 (hour t) ++ zfill 2 (minute t) ++ zfill 2 (second t)).
  unfold strftime. rewrite !length_app, !forallb_app.
  repeat match goal with
         | |- context [zfill ?w ?n] =>
             let H1 := fresh in let H2 := fresh in
             destruct (zfill_digits w n) as [H1 H2]; rewrite ?H1, ?H2;
             generalize dependent (zfill w n); intros
         end.
  split_and!; try done. by rewrite <- !app_assoc.
Qed.

Lemma read_text_file_clock self name w :
  now (read_text_file self name w).2 = now w.
Proof.
  cbv [read_text_file try_except bind open_read get_fs ret raise unmodelled
       logger_info logger_error].
  destruct (plain _); [|done].
  pose proof (walk_spec (fs w) (path_join (input_dir self) name)
                (rev (ancestors (path_join (input_dir self) name))) w) as Hw.
  unfold resolve_parent.
  destruct (walk _ _ _ w) as [[[]|e|] w1]; [|by destruct Hw as [-> _]|done].
  destruct Hw as [-> _]. by destruct (fs w !! _) as [[|content|]|].
Qed.

Lemma create_backup_name self name w backup w' :
  create_backup self name w = (Return backup, w') ->
  backup = splitext_root name ++ u "_" ++ strftime (now w) ++ u ".bak".
Proof.
  unfold create_backup, try_except, bind at 1.
  pose proof (read_text_file_clock self name w) as Hclock.
  destruct (read_text_file self name w) as [[content|e|] w1]; simpl in Hclock.
  - unfold datetime_now, bind at 1. rewrite Hclock.
    destruct (bind (write_text_file _ _ _) _ w1) as [[b|e|] w2] eqn:Hrest;
      [|unfold logger_error, raise, bind; simpl; done|done].
    intros [= <- <-]. revert Hrest. unfold bind.
    destruct (write_text_file _ _ _ w1) as [[[]|e|] w3]; [|done|done].
    unfold logger_info, ret. by intros [= <- _].
  - unfold logger_error, raise, bind; simpl; done.
  - done.
Qed.

(** C3, with the default directories and [data/input/a.txt] holding
    ["hello"]: [create_backup] returns a name of the stated form and writes
    the copy under [data/output]; reading the returned name looks under
    [data/input] and raises [FileNotFoundError]. *)
Theorem create_backup_then_read :
  let w0 := with_file (u "data/input/a.txt") (u "hello") fresh_world in
  let backup := u "a_20240102_030405.bak" in
  exists w1 w2,
    create_backup processor (u "a.txt") w0 = (Return backup, w1)
    /\ fs w1 !! (u "data/output/a_20240102_030405.bak") = Some (File (u "hello"))
    /\ read_text_file processor backup w1
       = (Raise (FileNotFoundError (u "data/input/a_20240102_030405.bak")), w2).
Proof. eexists _, _. repeat split; vm_compute; reflexivity. Qed.

(** C4, with the default directories and two input files: the merged file
    has the stated layout, but it is written under [data/output], and
    reading it back by name raises [FileNotFoundError]. *)
Theorem merge_then_read :
  let w0 := with_file (u "data/input/b.txt") (u "B")
              (with_file (u "data/input/a.txt") (u "A") fresh_world) in
  exists w1 w2,
    merge_text_files processor [u "a.txt"; u "b.txt"] (u "m.txt") w0 = (Return tt, w1)
    /\ fs w1 !! (u "data/output/m.txt")
       = Some (File (u "--- a.txt ---
A

--- b.txt ---
B
"))
    /\ read_text_file processor (u "m.txt") w1
       = (Raise (FileNotFoundError (u "data/input/m.txt")), w2).
Proof. eexists _, _. repeat split; vm_compute; reflexivity. Qed.

(** The run of [main()]: the files it has just written are not found by
    the merge that follows. *)
Example main_merge_fails :
  exists w1 w2,
    write_text_file processor (u "example.txt") (u "This is a plain text file example.")
      fresh_world = (Return tt, w1)
    /\ merge_text_files processor [u "example.txt"] (u "merged_files.txt") w1
       = (Raise (FileNotFoundError (u "data/input/example.txt")), w2).
Proof. eexists _, _. repeat split; vm_compute; reflexivity. Qed.


(** The constructor is what creates the two directories. *)
Lemma makedirs_chain_creates chain name w w' :
  makedirs_chain (name :: chain) w = (Return tt, w') -> fs w' !! name = Some Dir.
Proof.
  cbn [makedirs_chain]. unfold bind at 1.
  match goal with
  | |- context [match ?c w with _ => _ end] => destruct (c w) as [[[]|e|] w1]
  end; try done.
  unfold try_except, mkdir, bind, get_fs.
  pose proof (walk_spec (fs w1) name (rev (ancestors name)) w1) as Hw.
  unfold resolve_parent.
  destruct (walk _ _ _ w1) as [[[]|e|] w2]; [| |done].
  - destruct Hw as [-> _]. destruct (fs w1 !! name) as [nd|] eqn:Hname.
    + unfold raise. rewrite Hname. case_bool_decide as Hd; [|done].
      intros [= <-]. by rewrite Hname.
    + unfold put_fs. intros [= <-]. apply lookup_insert_eq.
  - destruct Hw as [-> _]. unfold raise, ret.
    case_bool_decide as Hd; [|done]. by intros [= <-].
Qed.

Lemma mkdir_keeps name p w :
  fs w !! p = Some Dir -> fs (mkdir name w).2 !! p = Some Dir.
Proof.
  intros Hp. unfold mkdir, bind, get_fs.
  pose proof (walk_spec (fs w) name (rev (ancestors name)) w) as Hw.
  unfold resolve_parent.
  destruct (walk _ _ _ w) as [[[]|e|] w1]; [|by destruct Hw as [-> _]|done].
  destruct Hw as [-> _]. destruct (fs w !! name) as [nd|] eqn:Hname; [done|].
  cbn. rewrite lookup_insert_ne; [done|]. congruence.
Qed.

Lemma makedirs_chain_keeps chain p w :
  fs w !! p = Some Dir -> fs (makedirs_chain chain w).2 !! p = Some Dir.
Proof.
  revert w. induction chain as [|name above IH]; intros w Hp; [done|].
  cbn [makedirs_chain]. unfold bind at 1.
  assert (Hfirst : forall c : M unit,
             (c = ret tt \/ c = (let! f := get_fs in
                                 if bool_decide (is_Some (f !! hd [] above)) then ret tt
                                 else try_except (makedirs_chain above)
                                        (fun e => match e with
                                                  | FileExistsError _ => ret tt
                                                  | _ => raise e
                                                  end))) ->
             fs (c w).2 !! p = Some Dir).
  { intros c [->| ->]; [done|]. unfold bind, get_fs.
    case_bool_decide; [done|]. unfold try_except.
    specialize (IH w Hp). destruct (makedirs_chain above w) as [[[]|e|] w1]; try done.
    by destruct e. }
  match goal with
  | |- context [match ?c w with _ => _ end] =>
      assert (Hc : fs (c w).2 !! p = Some Dir)
        by (apply Hfirst; destruct above; auto);
      destruct (c w) as [[[]|e|] w1]
  end; try done.
  simpl in Hc. unfold try_except.
  pose proof (mkdir_keeps name p w1 Hc) as Hm.
  destruct (mkdir name w1) as [[[]|e|] w2]; try done.
  simpl in Hm. unfold bind, get_fs. by case_bool_decide.
Qed.

Lemma init_creates_directories input output w self w' :
  init input output w = (Return self, w') ->
  self = Processor input output
  /\ fs w' !! input = Some Dir /\ fs w' !! output = Some Dir.
Proof.
  unfold init, bind.
  destruct (makedirs input w) as [[[]|e|] w1] eqn:Hin; try done.
  destruct (makedirs output w1) as [[[]|e|] w2] eqn:Hout; try done.
  unfold logger_info, ret. intros [= <- <-]. split; [done|]. simpl.
  unfold makedirs in Hin, Hout.
  destruct (plain input); [|done]. destruct (plain output); [|done].
  split; [|by apply makedirs_chain_creates in Hout].
  apply makedirs_chain_creates in Hin.
  pose proof (makedirs_chain_keeps (output :: ancestors output) input w1 Hin) as Hk.
  by rewrite Hout in Hk.
Qed.

(** ** More on the words of a text *)

(** Arithmetic over [sum_list]. *)
Ltac sum_lia :=
  unfold sum_list in *; cbn [sum_list_with length fmap list_fmap] in *;
  unfold id in *; lia.

Section Words.

Implicit Types (s word text : list N) (c : N).

Lemma split_from_words word s :
  Forall (fun c => isspace c = false) word ->
  Forall (fun w => w <> [] /\ Forall (fun c => isspace c = false) w) (split_from word s).
Proof.
  revert word. induction s as [|c s IH]; intros word Hword; cbn [split_from].
  - destruct word; [constructor|]. constructor; [done|constructor].
  - destruct (isspace c) eqn:Hc.
    + destruct word as [|x word]; [by apply IH|].
      constructor; [done|]. by apply IH.
    + apply IH. apply Forall_app. split; [done|]. by constructor.
Qed.

Lemma split_from_lengths word s :
  sum_list (length <$> split_from word s) + length (filter (fun c => isspace c = true) s)
  = length word + length s.
Proof.
  revert word. induction s as [|c s IH]; intros word; cbn [split_from].
  - destruct word; simpl; lia.
  - rewrite filter_cons. destruct (isspace c) eqn:Hc.
    + rewrite decide_True by done. specialize (IH []).
      destruct word as [|x word]; rewrite ?fmap_cons; sum_lia.
    + rewrite decide_False by congruence. rewrite IH, length_app. cbn [length]. lia.
Qed.

Lemma split_from_count word s :
  length (split_from word s) <= length (filter (fun c => isspace c = true) s) + 1.
Proof.
  revert word. induction s as [|c s IH]; intros word; cbn [split_from].
  - destruct word; simpl; lia.
  - rewrite filter_cons. destruct (isspace c) eqn:Hc.
    + rewrite decide_True by done. specialize (IH []).
      destruct word; cbn [length] in *; lia.
    + rewrite decide_False by congruence. apply IH.
Qed.

Lemma split_from_leading word ws s :
  Forall (fun c => isspace c = true) ws ->
  split_from [] (ws ++ s) = split_from [] s.
Proof.
  induction 1 as [|c ws Hc _ IH]; [done|]. cbn [app split_from]. by rewrite Hc.
Qed.

Lemma split_from_trailing word s ws :
  Forall (fun c => isspace c = true) ws ->
  split_from word (s ++ ws) = split_from word s.
Proof.
  intros Hws. revert word. induction s as [|c s IH]; intros word; cbn [app split_from].
  - induction Hws as [|c ws Hc _ IHws] in word |- *; [done|].
    cbn [split_from]. rewrite Hc. destruct word; [apply IHws|].
    rewrite IHws. done.
  - destruct (isspace c); [destruct word|]; by rewrite ?IH.
Qed.

Lemma split_padded ws1 text ws2 :
  Forall (fun c => isspace c = true) ws1 ->
  Forall (fun c => isspace c = true) ws2 ->
  split (ws1 ++ text ++ ws2) = split text.
Proof.
  intros H1 H2. unfold split.
  by rewrite (split_from_leading [] ws1), (split_from_trailing [] text ws2).
Qed.


Lemma words_total_length (words : list (list N)) :
  Forall (fun w => w <> []) words -> length words <= sum_list (length <$> words).
Proof.
  induction 1 as [|w words Hw _ IH]; [done|]. rewrite fmap_cons.
  destruct w; [done|]. sum_lia.
Qed.

Lemma occurrences_positive word (words : list (list N)) :
  word ∈ words -> 1 <= occurrences word words.
Proof.
  unfold occurrences. induction 1 as [w words|w x words _ IH]; rewrite filter_cons.
  - rewrite decide_True by done. simpl. lia.
  - case_decide; simpl; lia.
Qed.

Lemma counter_incr_total x (d : list (list N * nat)) :
  sum_list ((counter_incr x d).*2) = S (sum_list (d.*2)).
Proof.
  induction d as [|[k v] d IH]; [done|]. cbn [counter_incr].
  case_decide; rewrite !fmap_cons; cbn [snd]; sum_lia.
Qed.

Lemma Counter_total (words : list (list N)) : sum_list ((Counter words).*2) = length words.
Proof.
  induction words as [|x words IH] using rev_ind; [done|].
  rewrite Counter_snoc, counter_incr_total, IH, length_app. simpl. lia.
Qed.

Lemma sum_list_take (l : list nat) n : sum_list (take n l) <= sum_list l.
Proof.
  revert n. induction l as [|x l IH]; intros [|n]; cbn [take]; try sum_lia.
  specialize (IH n). sum_lia.
Qed.

Lemma fragments_no_delimiter b cur s :
  Forall (fun c => is_delimiter c = false) s -> fragments_from b cur s = [cur ++ s].
Proof.
  intros H. revert b cur. induction H as [|c s Hc _ IH]; intros b cur; cbn [fragments_from].
  - by rewrite app_nil_r.
  - rewrite Hc, IH. by rewrite <- app_assoc.
Qed.

Lemma fragments_with_delimiter cur s :
  Exists (fun c => is_delimiter c = true) s -> 2 <= length (fragments_from false cur s).
Proof.
  revert cur. induction s as [|c s IH]; intros cur Hex; [by apply Exists_nil in Hex|].
  cbn [fragments_from]. destruct (is_delimiter c) eqn:Hc.
  - pose proof (fragments_from_length true [] s). simpl. lia.
  - apply IH. apply Exists_cons in Hex as [Hex|Hex]; [congruence|done].
Qed.

Lemma fragments_count b cur s :
  length (fragments_from b cur s) <= length (filter (fun c => is_delimiter c = true) s) + 1.
Proof.
  revert b cur. induction s as [|c s IH]; intros b cur; cbn [fragments_from]; [simpl; lia|].
  rewrite filter_cons. destruct (is_delimiter c) eqn:Hc.
  - rewrite decide_True by done. specialize (IH true []). destruct b; cbn [length]; lia.
  - rewrite decide_False by congruence. apply IH.
Qed.

End Words.

(** ** More on [analyze_text] *)

Section MoreAnalysis.

Variable self : TextProcessor.

(** X1: every word listed in [most_common_words] is a non-empty run of
    characters that are no whitespace, listed with a count of at least 1. *)
Theorem listed_words_are_words text w :
  exists a w',
    analyze_text self text w = (Return a, w')
    /\ Forall (fun p => p.1 <> [] /\ Forall (fun c => isspace c = false) p.1 /\ 1 <= p.2)
              (most_common_words a).
Proof.
  eexists _, _. split; [apply analyze_text_run|]. cbn [most_common_words].
  destruct (most_common_spec 5 (split text)) as (Hin & _).
  apply Forall_forall. intros p [Hp ->]%Hin.
  pose proof (split_from_words [] text (Forall_nil_2 _)) as Hwords.
  rewrite Forall_forall in Hwords. destruct (Hwords _ Hp) as [Hne Hsp].
  split_and!; [done|done|by apply occurrences_positive].
Qed.

(** X2: the words and the whitespace account for every character of the
    text, so that [2 * word_count <= character_count + 1]. *)
Theorem word_count_bound text w :
  exists a w',
    analyze_text self text w = (Return a, w')
    /\ sum_list (length <$> split text)
       + length (filter (fun c => isspace c = true) text) = character_count a
    /\ word_count a <= character_count a
    /\ 2 * word_count a <= character_count a + 1.
Proof.
  eexists _, _. split; [apply analyze_text_run|]. cbn [word_count character_count].
  pose proof (split_from_lengths [] text) as Hlen.
  pose proof (split_from_count [] text) as Hcount.
  pose proof (split_from_words [] text (Forall_nil_2 _)) as Hwords.
  assert (Hne : Forall (fun w => w <> []) (split text)).
  { eapply Forall_impl; [exact Hwords|]. by intros ? [? _]. }
  apply words_total_length in Hne. unfold split in *. sum_lia.
Qed.

(** X3: when the text has a word, the average word length is at least 1
    and at most the number of characters. *)
Theorem average_word_length_bounds text w :
  exists a w',
    analyze_text self text w = (Return a, w')
    /\ (word_count a <> 0 ->
        Qle 1 (average_word_length a)
        /\ Qle (average_word_length a) (inject_Z (Z.of_nat (character_count a)))).
Proof.
  eexists _, _. split; [apply analyze_text_run|].
  cbn [word_count character_count average_word_length]. intros Hwc.
  pose proof (split_from_lengths [] text) as Hlen.
  pose proof (split_from_words [] text (Forall_nil_2 _)) as Hwords.
  assert (Hne : Forall (fun w => w <> []) (split text)).
  { eapply Forall_impl; [exact Hwords|]. by intros ? [? _]. }
  apply words_total_length in Hne. unfold split in *.
  destruct (split_from [] text) as [|word words] eqn:Hs; [done|].
  unfold average_of.
  remember (sum_list (length <$> word :: words)) as total eqn:Htotal.
  remember (length (word :: words)) as n eqn:Hn.
  assert (Hpos : Z.pos (Pos.of_nat n) = Z.of_nat n) by (subst n; simpl length; lia).
  unfold Qle. cbn [Qnum Qden inject_Z]. rewrite Hpos.
  remember (length (filter (fun c => isspace c = true) text)) as spaces.
  cbn [length] in Hlen. split; nia.
Qed.

(** X4: the counts listed in [most_common_words] add up to at most
    [word_count], and to exactly [word_count] when the text has at most
    five distinct words. *)
Theorem most_common_counts_sum text w :
  exists a w',
    analyze_text self text w = (Return a, w')
    /\ sum_list ((most_common_words a).*2) <= word_count a
    /\ (size (list_to_set (split text) : gset (list N)) <= 5 ->
        sum_list ((most_common_words a).*2) = word_count a).
Proof.
  eexists _, _. split; [apply analyze_text_run|]. cbn [word_count most_common_words].
  set (table := sorted_desc (Counter (split text))).
  assert (Hsum : sum_list (table.*2) = length (split text)).
  { rewrite <- Counter_total. unfold table. by rewrite sorted_desc_perm. }
  unfold most_common. fold table. rewrite fmap_take, <- Hsum.
  split; [apply sum_list_take|]. intros Hsize.
  destruct (most_common_spec (5 + length table) (split text)) as (_ & _ & Hlen & _).
  unfold most_common in Hlen. fold table in Hlen. rewrite length_take in Hlen.
  rewrite take_ge; [done|]. rewrite length_fmap. lia.
Qed.


(** X5: [sentence_count] is 1 exactly when the text has no [.], [!] or
    [?], and never more than the number of such characters plus one. *)
Theorem sentence_count_and_delimiters text w :
  exists a w',
    analyze_text self text w = (Return a, w')
    /\ (sentence_count a = 1 <-> Forall (fun c => is_delimiter c = false) text)
    /\ sentence_count a <= length (filter (fun c => is_delimiter c = true) text) + 1.
Proof.
  eexists _, _. split; [apply analyze_text_run|]. cbn [sentence_count].
  rewrite re_split_sentences, length_fmap. unfold sentence_fragments.
  split; [|apply fragments_count]. split.
  - intros Hone. apply Forall_forall. intros c Hc.
    destruct (is_delimiter c) eqn:Hd; [|done]. exfalso.
    assert (Hex : Exists (fun c => is_delimiter c = true) text)
      by (apply Exists_exists; eauto).
    apply (fragments_with_delimiter []) in Hex. lia.
  - intros Hnone. by rewrite fragments_no_delimiter.
Qed.

(** X6: whitespace around the text changes none of the word statistics. *)
Theorem outer_whitespace_is_ignored before text after w :
  Forall (fun c => isspace c = true) before ->
  Forall (fun c => isspace c = true) after ->
  exists a a' w1 w2,
    analyze_text self text w = (Return a, w1)
    /\ analyze_text self (before ++ text ++ after) w = (Return a', w2)
    /\ word_count a' = word_count a
    /\ average_word_length a' = average_word_length a
    /\ most_common_words a' = most_common_words a.
Proof.
  intros Hb Ha. eexists _, _, _, _.
  split; [apply analyze_text_run|]. split; [apply analyze_text_run|].
  cbn [word_count average_word_length most_common_words].
  by rewrite split_padded.
Qed.

End MoreAnalysis.

(** X6 on a text between a tab and a newline. *)
Lemma outer_whitespace_is_ignored_witness :
  (Forall (fun c => isspace c = true) [9%N] /\ Forall (fun c => isspace c = true) [10%N])
  /\ exists a a' w1 w2,
       analyze_text processor (u "a b") fresh_world = (Return a, w1)
       /\ analyze_text processor ([9%N] ++ u "a b" ++ [10%N]) fresh_world = (Return a', w2)
       /\ word_count a' = word_count a
       /\ average_word_length a' = average_word_length a
       /\ most_common_words a' = most_common_words a.
Proof.
  assert (Hbefore : Forall (fun c => isspace c = true) [9%N]) by repeat constructor.
  assert (Hafter : Forall (fun c => isspace c = true) [10%N]) by repeat constructor.
  split; [done|].
  exact (outer_whitespace_is_ignored processor [9%N] (u "a b") [10%N] fresh_world
           Hbefore Hafter).
Defined.

(** ** More on the file helpers *)

Section MoreFiles.

Implicit Types (s name content stored : list N) (f : gmap (list N) node).

(** *** Universal newlines *)

Lemma universal_newlines_facts n : forall s, length s <= n ->
  Forall (fun c => c <> 13%N) (universal_newlines s)
  /\ (Forall (fun c => c <> 13%N) s -> universal_newlines s = s).
Proof.
  induction n as [|n IH]; intros s Hn.
  - destruct s; [|simpl in Hn; lia]. by split.
  - destruct s as [|c s]; [by split|]. simpl in Hn. cbn [universal_newlines].
    destruct (N.eqb_spec c 13) as [->|Hc].
    + split; [|by intros [? _]%Forall_cons].
      constructor; [done|]. destruct s as [|d s]; [done|]. simpl in Hn.
      destruct (d =? 10)%N; apply IH; simpl; lia.
    + destruct (IH s ltac:(lia)) as [H1 H2]. split; [by constructor|].
      intros [_ Hs]%Forall_cons. by rewrite H2.
Qed.

Lemma universal_newlines_no_cr s : Forall (fun c => c <> 13%N) (universal_newlines s).
Proof. by apply (universal_newlines_facts (length s)). Qed.

Lemma universal_newlines_id s :
  Forall (fun c => c <> 13%N) s -> universal_newlines s = s.
Proof. by apply (universal_newlines_facts (length s)). Qed.

Lemma universal_newlines_idempotent s :
  universal_newlines (universal_newlines s) = universal_newlines s.
Proof. apply universal_newlines_id, universal_newlines_no_cr. Qed.

(** *** What a call that returned tells *)

Lemma read_text_file_returned self name content w w' :
  read_text_file self name w = (Return content, w') ->
  let file_path := path_join (input_dir self) name in
  exists stored,
    plain file_path = true /\ reachable (fs w) file_path = true
    /\ fs w !! file_path = Some (File stored)
    /\ content = universal_newlines stored
    /\ w' = World (fs w) (log w ++ [Log INFO (u "Successfully read file: " ++ name) None])
                  (now w).
Proof.
  intros Hread file_path. revert Hread.
  cbv [read_text_file try_except bind open_read get_fs]. fold file_path.
  destruct (plain file_path); [|done].
  destruct (reachable (fs w) file_path) eqn:Hreach.
  - rewrite resolve_parent_reachable by done.
    destruct (fs w !! file_path) as [[|stored|]|]; [done| |done|done].
    cbv [ret logger_info]. intros [= <- <-]. by exists stored.
  - by destruct (resolve_parent_unreachable _ _ w Hreach) as (e & -> & _).
Qed.

Lemma read_text_file_existing self name stored w :
  let file_path := path_join (input_dir self) name in
  plain file_path = true -> reachable (fs w) file_path = true ->
  fs w !! file_path = Some (File stored) ->
  read_text_file self name w
  = (Return (universal_newlines stored),
     World (fs w) (log w ++ [Log INFO (u "Successfully read file: " ++ name) None]) (now w)).
Proof.
  intros file_path Hplain Hreach Hfile.
  cbv [read_text_file try_except bind open_read get_fs]. fold file_path.
  by rewrite Hplain, resolve_parent_reachable, Hfile.
Qed.

Lemma walk_world f p dirs w v : walk f p dirs v = ((walk f p dirs w).1, v).
Proof.
  induction dirs as [|d dirs IH]; [done|]. cbn [walk].
  by destruct (f !! d) as [[|?|]|].
Qed.

(** Reading never changes a file, and its outcome depends on the files
    only. *)
Lemma read_text_file_pure self name w :
  fs (read_text_file self name w).2 = fs w
  /\ now (read_text_file self name w).2 = now w
  /\ forall w2, fs w2 = fs w ->
       (read_text_file self name w2).1 = (read_text_file self name w).1.
Proof.
  cbv [read_text_file try_except bind open_read get_fs ret raise unmodelled
       logger_info logger_error resolve_parent].
  destruct (plain _); [|done].
  split_and!; [| |intros w2 ->; rewrite (walk_world _ _ _ w w2)];
    rewrite (walk_world _ _ _ w w);
    (destruct (walk _ _ _ w).1 as [[]|e|]; [|done|done]);
    by destruct (fs w !! _) as [[|?|]|].
Qed.

Lemma write_text_file_returned self name content w w' :
  write_text_file self name content w = (Return tt, w') ->
  let target := path_join (output_dir self) name in
  plain target = true /\ reachable (fs w) target = true
  /\ fs w !! target <> Some Dir /\ encodable content = true
  /\ w' = World (<[target := File content]> (fs w))
                (log w ++ [Log INFO (u "Successfully wrote to file: " ++ name) None])
                (now w).
Proof.
  intros Hwrite target. revert Hwrite.
  cbv [write_text_file try_except bind open_write get_fs]. fold target.
  destruct (plain target); [|done].
  destruct (reachable (fs w) target) eqn:Hreach.
  - rewrite resolve_parent_reachable by done.
    destruct (fs w !! target) as [[|old|]|] eqn:Htarget; [done| | |];
      cbv [put_fs ret raise logger_info]; cbn [fs log now];
      destruct (encodable content); try done; by intros [= <-].
  - by destruct (resolve_parent_unreachable _ _ w Hreach) as (e & -> & _).
Qed.


Lemma reachable_insert_file f p q content :
  reachable f p = true -> f !! q <> Some Dir ->
  reachable (<[q := File content]> f) p = true.
Proof.
  unfold reachable. rewrite !forallb_forall. intros Hall Hq d Hd.
  specialize (Hall d Hd). apply bool_decide_eq_true in Hall.
  apply bool_decide_eq_true. rewrite lookup_insert_ne; [done|]. congruence.
Qed.

Lemma path_join_absolute a rest : path_join a (sep :: rest) = sep :: rest.
Proof. reflexivity. Qed.

(** X7: the text [read_text_file] returns holds no carriage return, and is
    the stored text itself when that has none. *)
Theorem read_text_file_newlines self name content w w' :
  read_text_file self name w = (Return content, w') ->
  Forall (fun c => c <> 13%N) content
  /\ exists stored,
       fs w !! path_join (input_dir self) name = Some (File stored)
       /\ content = universal_newlines stored
       /\ (Forall (fun c => c <> 13%N) stored -> content = stored).
Proof.
  intros (stored & _ & _ & Hfile & -> & _)%read_text_file_returned.
  split; [apply universal_newlines_no_cr|].
  exists stored. split_and!; [done|done|apply universal_newlines_id].
Qed.

(** X8: when the name joins to the same path under both directories (the
    directories are the same, or the name is absolute), a file written by
    [write_text_file] is read back by [read_text_file], with [\r\n] and
    [\r] turned into [\n]. *)
Theorem write_then_read self name content w w' :
  input_dir self = output_dir self \/ (exists rest, name = sep :: rest) ->
  write_text_file self name content w = (Return tt, w') ->
  exists w'',
    read_text_file self name w' = (Return (universal_newlines content), w'')
    /\ (Forall (fun c => c <> 13%N) content -> universal_newlines content = content).
Proof.
  intros Hsame (Hplain & Hreach & Hnotdir & _ & ->)%write_text_file_returned.
  assert (Hpath : path_join (input_dir self) name = path_join (output_dir self) name).
  { destruct Hsame as [->|[rest ->]]; [done|]. by rewrite !path_join_absolute. }
  eexists. split; [|apply universal_newlines_id].
  apply read_text_file_existing; rewrite Hpath; cbn [fs].
  - done.
  - by apply reachable_insert_file.
  - apply lookup_insert_eq.
Qed.

End MoreFiles.

(** ** Backups and merges *)

Section Backups.

Implicit Types (s name content stored : list N) (f : gmap (list N) node).

Lemma read_text_file_raised self name e w w' :
  read_text_file self name w = (Raise e, w') ->
  w' = World (fs w)
             (log w ++ [Log ERROR (u "Error reading file " ++ name ++ u ": ") (Some e)])
             (now w).
Proof.
  cbv [read_text_file try_except bind open_read get_fs].
  destruct (plain _); [|done].
  destruct (reachable (fs w) (path_join (input_dir self) name)) eqn:Hreach.
  - rewrite resolve_parent_reachable by done.
    destruct (fs w !! _) as [[|stored|]|]; cbv [ret raise logger_info logger_error];
      by intros [= <- <-].
  - destruct (resolve_parent_unreachable _ _ w Hreach) as (e' & -> & _).
    cbv [logger_error raise]. by intros [= <- <-].
Qed.

Lemma rsplit_None c s : rsplit c s = None -> c ∉ s.
Proof.
  induction s as [|x s IH]; cbn [rsplit]; [intros _; apply not_elem_of_nil|].
  destruct (rsplit c s) as [[]|]; [done|].
  destruct (N.eqb_spec x c); [done|]. intros _. apply not_elem_of_cons. auto.
Qed.

Lemma rsplit_Some c s h t : rsplit c s = Some (h, t) -> s = h ++ (c :: t) /\ c ∉ t.
Proof.
  revert h. induction s as [|x s IH]; intros h; cbn [rsplit]; [done|].
  destruct (rsplit c s) as [[h' t']|] eqn:Hr.
  - intros [= <- <-]. destruct (IH h' eq_refl) as [-> Ht]. by split.
  - destruct (N.eqb_spec x c) as [->|]; [|done]. intros [= <- <-].
    split; [done|by apply rsplit_None].
Qed.

(** What [os.path.splitext] cuts off is nothing, or a dot and an extension
    without dot or slash. *)
Lemma splitext_root_ext p :
  exists ext, p = splitext_root p ++ ext
              /\ (ext = [] \/ exists e, ext = (46%N :: e) /\ (46%N ∉ e) /\ sep ∉ e).
Proof.
  unfold splitext_root.
  assert (Hname : exists d t, p = d ++ t /\ (sep ∉ t)
                              /\ t = match rsplit sep p with Some (_, t) => t | None => p end).
  { destruct (rsplit sep p) as [[h t]|] eqn:Hr.
    - apply rsplit_Some in Hr as [-> Ht]. exists (h ++ [sep]), t.
      by rewrite <- app_assoc.
    - exists [], p. split_and!; [done| |done]. by apply rsplit_None. }
  destruct Hname as (d & t & Hp & Hsep & <-).
  destruct (rsplit 46%N t) as [[stem ext]|] eqn:Hr;
    [|exists []; rewrite app_nil_r; auto].
  destruct (forallb _ stem); [exists []; rewrite app_nil_r; auto|].
  apply rsplit_Some in Hr as [-> Hext]. exists (46%N :: ext).
  subst p. split.
  - rewrite (app_assoc d stem). rewrite take_app_length'; [done|].
    rewrite !length_app. cbn [length]. lia.
  - right. exists ext. split_and!; [done|done|]. intros Hin. apply Hsep.
    apply elem_of_app. right. by apply list_elem_of_further.
Qed.

(** X9: a backup that returns has copied the text read from the input file
    [name] (line breaks normalised) to the file of the returned name in the
    output directory, changed nothing else, and logged the read, the write
    and the backup. *)
Theorem create_backup_copies self name backup w w' :
  create_backup self name w = (Return backup, w') ->
  exists stored,
    fs w !! path_join (input_dir self) name = Some (File stored)
    /\ backup = splitext_root name ++ u "_" ++ strftime (now w) ++ u ".bak"
    /\ fs w' = <[path_join (output_dir self) backup := File (universal_newlines stored)]>
                (fs w)
    /\ log w' = log w ++ [Log INFO (u "Successfully read file: " ++ name) None;
                          Log INFO (u "Successfully wrote to file: " ++ backup) None;
                          Log INFO (u "Created backup: " ++ backup) None]
    /\ now w' = now w.
Proof.
  unfold create_backup, try_except, bind at 1.
  destruct (read_text_file self name w) as [[content|e|] w1] eqn:Hread;
    [|cbv [logger_error raise bind]; done|done].
  apply read_text_file_returned in Hread as (stored & _ & _ & Hfile & -> & ->).
  unfold datetime_now, bind at 1. cbn [now]. unfold bind at 1.
  match goal with
  | |- context [write_text_file ?s ?n ?c ?v] =>
      destruct (write_text_file s n c v) as [[[]|e|] w2] eqn:Hwrite
  end; [|cbv [logger_error raise bind]; done|done].
  apply write_text_file_returned in Hwrite as (_ & _ & _ & _ & ->).
  cbv [logger_info ret bind]. cbn [fs log now]. intros [= <- <-]. cbn [fs log now].
  exists stored. split_and!; try done. by rewrite <- !app_assoc.
Qed.

(** X10: the name of a backup is the name of the file up to its extension
    (the directory part stays), [_], the date as eight digits, [_], the time
    as six digits, and [.bak]; the extension is what follows the last dot of
    the last component. *)
Theorem create_backup_name_shape self name backup w w' :
  create_backup self name w = (Return backup, w') ->
  exists root ext date time,
    name = root ++ ext
    /\ (ext = [] \/ exists e, ext = (46%N :: e) /\ (46%N ∉ e) /\ sep ∉ e)
    /\ backup = root ++ u "_" ++ date ++ u "_" ++ time ++ u ".bak"
    /\ length date = 8 /\ length time = 6
    /\ forallb is_digit date = true /\ forallb is_digit time = true.
Proof.
  intros ->%create_backup_name.
  destruct (splitext_root_ext name) as (ext & Hname & Hext).
  destruct (strftime_shape (now w)) as (date & time & -> & Hshape).
  exists (splitext_root name), ext, date, time.
  split_and!; try done; try tauto. by rewrite <- !app_assoc.
Qed.

(** X11: when the file cannot be read, the backup raises the exception of
    the read, writes nothing, and the error is logged twice: by the read and
    by the backup. *)
Theorem create_backup_unreadable self name e w :
  (read_text_file self name w).1 = Raise e ->
  exists w',
    create_backup self name w = (Raise e, w')
    /\ fs w' = fs w
    /\ log w' = log w ++ [Log ERROR (u "Error reading file " ++ name ++ u ": ") (Some e);
                          Log ERROR (u "Error creating backup: ") (Some e)].
Proof.
  intros Hread. unfold create_backup, try_except, bind at 1.
  destruct (read_text_file self name w) as [[content|e'|] w1] eqn:Hr; simplify_eq/=.
  apply read_text_file_raised in Hr as ->.
  cbv [logger_error raise bind]. cbn [fs log now]. eexists. split_and!; [done|done|].
  by rewrite <- app_assoc.
Qed.

End Backups.

Section Merges.

Implicit Types (s name content stored : list N) (names : list (list N)).

(** The loop reads the files in order and changes no file; it returns the
    sections of the texts read, or stops at the first file whose read does
    not return. *)
Lemma merge_sections_spec self names : forall w,
  fs (merge_sections self names w).2 = fs w
  /\ now (merge_sections self names w).2 = now w
  /\ match (merge_sections self names w).1 with
     | Return sections =>
         exists contents,
           Forall2 (fun n c => (read_text_file self n w).1 = Return c) names contents
           /\ sections = zip_with section_text names contents
     | Raise e => exists n, n ∈ names /\ (read_text_file self n w).1 = Raise e
     | Unmodelled => exists n, n ∈ names /\ (read_text_file self n w).1 = Unmodelled
     end.
Proof.
  induction names as [|n names IH]; intros w; [by split_and!; [..|exists []]|].
  cbn [merge_sections]. unfold bind, ret.
  destruct (read_text_file_pure self n w) as (Hfs & Hnow & _).
  destruct (read_text_file self n w) as [[c|e|] w1] eqn:Hread; cbn [fst snd] in *.
  - destruct (IH w1) as (Hfs1 & Hnow1 & Hres).
    assert (Hsame : forall m, (read_text_file self m w1).1 = (read_text_file self m w).1).
    { intros m. by apply read_text_file_pure. }
    destruct (merge_sections self names w1) as [[sections|e|] w2]; cbn [fst snd] in *.
    + split_and!; [congruence|congruence|].
      destruct Hres as (contents & Hall & ->). exists (c :: contents). split; [|reflexivity].
      constructor; [by rewrite Hread|].
      eapply Forall2_impl; [done|]. intros m d. cbv beta. by rewrite Hsame.
    + split_and!; [congruence|congruence|].
      destruct Hres as (m & Hm & Hr). exists m. rewrite <- Hsame.
      split; [by apply list_elem_of_further|done].
    + split_and!; [congruence|congruence|].
      destruct Hres as (m & Hm & Hr). exists m. rewrite <- Hsame.
      split; [by apply list_elem_of_further|done].
  - split_and!; [done|done|]. exists n. rewrite Hread.
    split; [apply list_elem_of_here|done].
  - split_and!; [done|done|]. exists n. rewrite Hread.
    split; [apply list_elem_of_here|done].
Qed.

(** X12: a merge that returns has written one file, under the output
    directory: for each listed name in order the header line, the text read
    from that input file and a line break, the sections joined by a line
    break. *)
Theorem merge_text_files_layout self names output w w' :
  merge_text_files self names output w = (Return tt, w') ->
  exists contents,
    Forall2 (fun n c => exists stored,
                 fs w !! path_join (input_dir self) n = Some (File stored)
                 /\ c = universal_newlines stored) names contents
    /\ fs w' = <[path_join (output_dir self) output
                 := File (str_join [10%N] (zip_with section_text names contents))]> (fs w).
Proof.
  unfold merge_text_files, try_except, bind at 1.
  destruct (merge_sections_spec self names w) as (Hfs & _ & Hres).
  destruct (merge_sections self names w) as [[sections|e|] w1];
    [|cbv [logger_error raise bind]; done|done].
  cbn [fst snd] in *. destruct Hres as (contents & Hall & ->).
  unfold bind at 1.
  match goal with
  | |- context [write_text_file ?s ?n ?c ?v] =>
      destruct (write_text_file s n c v) as [[[]|e|] w2] eqn:Hwrite
  end; [|cbv [logger_error raise bind]; done|done].
  apply write_text_file_returned in Hwrite as (_ & _ & _ & _ & ->).
  cbv [logger_info]. intros [= <-]. cbn [fs]. exists contents. split; [|by rewrite Hfs].
  eapply Forall2_impl; [done|]. intros n c Hread. cbv beta in Hread.
  destruct (read_text_file self n w) as [o v] eqn:Hr. cbn [fst] in Hread. subst o.
  apply read_text_file_returned in Hr as (stored & _ & _ & Hfile & -> & _).
  by exists stored.
Qed.

(** X13: when one of the listed files cannot be read, the merge does not
    return and writes nothing. *)
Theorem merge_text_files_all_or_nothing self names output name w :
  name ∈ names ->
  (forall content, (read_text_file self name w).1 <> Return content) ->
  (merge_text_files self names output w).1 <> Return tt
  /\ fs (merge_text_files self names output w).2 = fs w.
Proof.
  intros Hin Hbad. unfold merge_text_files, try_except, bind.
  destruct (merge_sections_spec self names w) as (Hfs & _ & Hres).
  destruct (merge_sections self names w) as [[sections|e|] w1]; cbn [fst snd] in *.
  - destruct Hres as (contents & Hall & _). exfalso.
    apply list_elem_of_lookup_1 in Hin as [i Hi].
    destruct (Forall2_lookup_l _ _ _ _ _ Hall Hi) as (c & _ & Hc). by eapply Hbad.
  - by cbv [logger_error raise].
  - done.
Qed.

End Merges.

(** ** The file helpers on examples *)

(** X7 on a file with a Windows line break. *)
Lemma read_text_file_newlines_witness :
  let w := with_file (u "data/input/a.txt") [97; 13; 10; 98]%N fresh_world in
  let w' := (read_text_file processor (u "a.txt") w).2 in
  read_text_file processor (u "a.txt") w = (Return [97; 10; 98]%N, w')
  /\ Forall (fun c => c <> 13%N) [97; 10; 98]%N.
Proof.
  intros w w'.
  assert (Hread : read_text_file processor (u "a.txt") w = (Return [97; 10; 98]%N, w'))
    by (vm_compute; reflexivity).
  split; [exact Hread|].
  exact (proj1 (read_text_file_newlines processor (u "a.txt") _ w w' Hread)).
Defined.

(** X8 on a processor that reads and writes in the same directory. *)
Lemma write_then_read_witness :
  let self := Processor (u "data") (u "data") in
  let w := (init (u "data") (u "data") (empty_world (Datetime 2024 1 2 3 4 5))).2 in
  let w' := (write_text_file self (u "x.txt") (u "hi") w).2 in
  (input_dir self = output_dir self
   /\ write_text_file self (u "x.txt") (u "hi") w = (Return tt, w'))
  /\ exists w'',
       read_text_file self (u "x.txt") w' = (Return (universal_newlines (u "hi")), w'')
       /\ (Forall (fun c => c <> 13%N) (u "hi") -> universal_newlines (u "hi") = u "hi").
Proof.
  intros self w w'.
  assert (Hdirs : input_dir self = output_dir self) by reflexivity.
  assert (Hwrite : write_text_file self (u "x.txt") (u "hi") w = (Return tt, w'))
    by (vm_compute; reflexivity).
  split; [done|].
  exact (write_then_read self (u "x.txt") (u "hi") w w' (or_introl Hdirs) Hwrite).
Defined.

(** X9 on [data/input/a.txt] holding ["hello"]. *)
Lemma create_backup_copies_witness :
  let w := with_file (u "data/input/a.txt") (u "hello") fresh_world in
  let backup := u "a_20240102_030405.bak" in
  let w' := (create_backup processor (u "a.txt") w).2 in
  create_backup processor (u "a.txt") w = (Return backup, w')
  /\ exists stored,
       fs w !! path_join (input_dir processor) (u "a.txt") = Some (File stored)
       /\ fs w' = <[path_join (output_dir processor) backup
                    := File (universal_newlines stored)]> (fs w).
Proof.
  intros w backup w'.
  assert (Hrun : create_backup processor (u "a.txt") w = (Return backup, w'))
    by (vm_compute; reflexivity).
  split; [exact Hrun|].
  destruct (create_backup_copies processor (u "a.txt") backup w w' Hrun)
    as (stored & Hfile & _ & Hfs & _).
  exists stored. split; [exact Hfile|exact Hfs].
Defined.

(** X10 on a file with two dots in its name. *)
Lemma create_backup_name_shape_witness :
  let w := with_file (u "data/input/a.tar.gz") (u "z") fresh_world in
  let w' := (create_backup processor (u "a.tar.gz") w).2 in
  let backup := u "a.tar_20240102_030405.bak" in
  create_backup processor (u "a.tar.gz") w = (Return backup, w')
  /\ exists root ext date time,
       u "a.tar.gz" = root ++ ext
       /\ backup = root ++ u "_" ++ date ++ u "_" ++ time ++ u ".bak"
       /\ length date = 8 /\ length time = 6.
Proof.
  intros w w' backup.
  assert (Hrun : create_backup processor (u "a.tar.gz") w = (Return backup, w'))
    by (vm_compute; reflexivity).
  split; [exact Hrun|].
  destruct (create_backup_name_shape processor (u "a.tar.gz") backup w w' Hrun)
    as (root & ext & date & time & H1 & _ & H2 & H3 & H4 & _).
  exists root, ext, date, time. split_and!; assumption.
Defined.

(** X11 on a file that is not there. *)
Lemma create_backup_unreadable_witness :
  let e := FileNotFoundError (u "data/input/missing.txt") in
  (read_text_file processor (u "missing.txt") fresh_world).1 = Raise e
  /\ exists w', create_backup processor (u "missing.txt") fresh_world = (Raise e, w')
                /\ fs w' = fs fresh_world.
Proof.
  intros e.
  assert (Hread : (read_text_file processor (u "missing.txt") fresh_world).1 = Raise e)
    by reflexivity.
  split; [exact Hread|].
  destruct (create_backup_unreadable processor (u "missing.txt") e fresh_world Hread)
    as (w' & Hrun & Hfs & _).
  exists w'. split; [exact Hrun|exact Hfs].
Defined.

(** X12 on two input files. *)
Lemma merge_text_files_layout_witness :
  let w := with_file (u "data/input/b.txt") (u "B")
             (with_file (u "data/input/a.txt") (u "A") fresh_world) in
  let names := [u "a.txt"; u "b.txt"] in
  let w' := (merge_text_files processor names (u "m.txt") w).2 in
  merge_text_files processor names (u "m.txt") w = (Return tt, w')
  /\ exists contents,
       length contents = 2
       /\ fs w' = <[path_join (output_dir processor) (u "m.txt")
                    := File (str_join [10%N] (zip_with section_text names contents))]> (fs w).
Proof.
  intros w names w'.
  assert (Hrun : merge_text_files processor names (u "m.txt") w = (Return tt, w'))
    by (vm_compute; reflexivity).
  split; [exact Hrun|].
  destruct (merge_text_files_layout processor names (u "m.txt") w w' Hrun)
    as (contents & Hall & Hfs).
  exists contents. split; [|done]. symmetry. exact (Forall2_length _ _ _ Hall).
Defined.

(** X13 on a list whose second file is not there. *)
Lemma merge_text_files_all_or_nothing_witness :
  let w := with_file (u "data/input/a.txt") (u "A") fresh_world in
  let names := [u "a.txt"; u "b.txt"] in
  (u "b.txt" ∈ names
   /\ forall content, (read_text_file processor (u "b.txt") w).1 <> Return content)
  /\ (merge_text_files processor names (u "m.txt") w).1 <> Return tt
  /\ fs (merge_text_files processor names (u "m.txt") w).2 = fs w.
Proof.
  intros w names.
  assert (Hin : u "b.txt" ∈ names)
    by (apply list_elem_of_further, list_elem_of_here).
  assert (Hbad : forall content,
             (read_text_file processor (u "b.txt") w).1 <> Return content)
    by (intros content; vm_compute; discriminate).
  split; [done|].
  exact (merge_text_files_all_or_nothing processor names (u "m.txt") (u "b.txt") w Hin Hbad).
Defined.


(** ** The constructor *)

Section Constructor.

Implicit Types (name input output p : list N) (f : gmap (list N) node)
  (chain among : list (list N)).

Lemma grows_refl among f : grows among f f.
Proof. intros p. by left. Qed.

Lemma grows_trans among1 among2 among f1 f2 f3 :
  grows among1 f1 f2 -> grows among2 f2 f3 ->
  among1 ⊆ among -> among2 ⊆ among -> grows among f1 f3.
Proof.
  intros H12 H23 Hsub1 Hsub2 p.
  destruct (H12 p) as [H1|(H1 & H1' & Hin1)], (H23 p) as [H2|(H2 & H2' & Hin2)].
  - left. congruence.
  - right. split_and!; [congruence|done|by apply Hsub2].
  - right. split_and!; [done|congruence|by apply Hsub1].
  - congruence.
Qed.

Lemma bind_run {A B} (c : M A) (k : A -> M B) w :
  bind c k w = match c w with
               | (Return a, w') => k a w'
               | (Raise e, w') => (Raise e, w')
               | (Unmodelled, w') => (Unmodelled, w')
               end.
Proof. reflexivity. Qed.

Lemma mkdir_grows name w :
  grows [name] (fs w) (fs (mkdir name w).2)
  /\ log (mkdir name w).2 = log w /\ now (mkdir name w).2 = now w.
Proof.
  unfold mkdir, bind, get_fs, resolve_parent.
  rewrite (walk_world _ _ _ w w).
  destruct (walk _ _ _ w).1 as [[]|e|]; [|by split_and!; [apply grows_refl|..]..].
  destruct (fs w !! name) as [nd|] eqn:Hname; [by split_and!; [apply grows_refl|..]|].
  cbn [put_fs snd fs log now]. split_and!; [|done|done]. intros p.
  destruct (decide (p = name)) as [->|Hne].
  - right. rewrite lookup_insert_eq. split_and!; [done|done|apply list_elem_of_here].
  - left. by rewrite lookup_insert_ne.
Qed.

Lemma makedirs_chain_grows chain : forall w,
  grows chain (fs w) (fs (makedirs_chain chain w).2)
  /\ log (makedirs_chain chain w).2 = log w /\ now (makedirs_chain chain w).2 = now w.
Proof.
  induction chain as [|name above IH]; intros w; [by split_and!; [apply grows_refl|..]|].
  cbn [makedirs_chain]. rewrite bind_run.
  assert (Hfirst : forall c : M unit,
             (c = ret tt \/ c = (let! f := get_fs in
                                 if bool_decide (is_Some (f !! hd [] above)) then ret tt
                                 else try_except (makedirs_chain above)
                                        (fun e => match e with
                                                  | FileExistsError _ => ret tt
                                                  | _ => raise e
                                                  end))) ->
             grows above (fs w) (fs (c w).2)
             /\ log (c w).2 = log w /\ now (c w).2 = now w).
  { intros c [->| ->]; [by split_and!; [apply grows_refl|..]|]. unfold bind, get_fs.
    case_bool_decide; [by split_and!; [apply grows_refl|..]|]. unfold try_except.
    specialize (IH w). destruct (makedirs_chain above w) as [[[]|e|] w1]; try done.
    by destruct e. }
  match goal with
  | |- context [match ?c w with _ => _ end] =>
      assert (Hc : grows above (fs w) (fs (c w).2)
                   /\ log (c w).2 = log w /\ now (c w).2 = now w)
        by (apply Hfirst; destruct above; auto);
      destruct (c w) as [[[]|e|] w1]
  end; cbn [snd] in Hc; destruct Hc as (Hg & Hlog & Hnow).
  - unfold try_except. destruct (mkdir_grows name w1) as (Hg1 & Hlog1 & Hnow1).
    assert (Hall : grows (name :: above) (fs w) (fs (mkdir name w1).2)).
    { eapply grows_trans; [exact Hg|exact Hg1|..].
      - intros x Hx. by apply list_elem_of_further.
      - intros x ->%list_elem_of_singleton. apply list_elem_of_here. }
    destruct (mkdir name w1) as [[[]|e|] w2]; cbn [snd] in *.
    + split_and!; [done|congruence|congruence].
    + unfold bind, get_fs. case_bool_decide; cbn [snd ret raise];
        (split_and!; [done|congruence|congruence]).
    + split_and!; [done|congruence|congruence].
  - cbn [snd]. split_and!; [|done|done].
    eapply (grows_trans _ above); [exact Hg|apply grows_refl|..];
      intros x Hx; by apply list_elem_of_further.
  - cbn [snd]. split_and!; [|done|done].
    eapply (grows_trans _ above); [exact Hg|apply grows_refl|..];
      intros x Hx; by apply list_elem_of_further.
Qed.

Lemma makedirs_grows name w :
  grows (name :: ancestors name) (fs w) (fs (makedirs name w).2)
  /\ log (makedirs name w).2 = log w /\ now (makedirs name w).2 = now w.
Proof.
  unfold makedirs. destruct (plain name); [apply makedirs_chain_grows|].
  by split_and!; [apply grows_refl|..].
Qed.

(** [os.makedirs(name, exist_ok=True)] when the directories on the way to
    [name] are there: an existing directory is left alone, a regular file is
    an error, and otherwise the one directory is made. *)
Lemma makedirs_reachable name w :
  plain name = true -> reachable (fs w) name = true ->
  makedirs name w
  = match fs w !! name with
    | Some Dir => (Return tt, w)
    | Some (File _) | Some Binary => (Raise (FileExistsError name), w)
    | None => (Return tt, World (<[name := Dir]> (fs w)) (log w) (now w))
    end.
Proof.
  intros Hplain Hreach. unfold makedirs. rewrite Hplain. cbn [makedirs_chain].
  rewrite bind_run.
  assert (Hhead : forall head rest, ancestors name = head :: rest ->
                                    is_Some (fs w !! head)).
  { intros head rest Ha. unfold reachable in Hreach. rewrite Ha in Hreach.
    rewrite forallb_forall in Hreach. exists Dir.
    eapply bool_decide_eq_true_1, Hreach. apply in_rev. rewrite rev_involutive. by left. }
  assert (Hmkdir : try_except (mkdir name)
                     (fun e => let! f := get_fs in
                               if bool_decide (f !! name = Some Dir) then ret tt
                               else raise e) w
                   = match fs w !! name with
                     | Some Dir => (Return tt, w)
                     | Some (File _) | Some Binary => (Raise (FileExistsError name), w)
                     | None => (Return tt, World (<[name := Dir]> (fs w)) (log w) (now w))
                     end).
  { unfold try_except, mkdir, bind, get_fs.
    rewrite resolve_parent_reachable by done.
    destruct (fs w !! name) as [[|content|]|] eqn:Hname; unfold raise, ret, put_fs;
      rewrite ?Hname; [by rewrite bool_decide_eq_true_2| | |done];
      by rewrite bool_decide_eq_false_2. }
  destruct (ancestors name) as [|head rest] eqn:Ha; [exact Hmkdir|].
  unfold bind at 1, get_fs at 1.
  rewrite bool_decide_eq_true_2 by eauto. exact Hmkdir.
Qed.

(** X14: a constructor call that returns leaves both directories in
    place, has logged one record, and has not touched the clock. *)
Theorem init_returns input output self w w' :
  init input output w = (Return self, w') ->
  self = Processor input output
  /\ fs w' !! input = Some Dir /\ fs w' !! output = Some Dir
  /\ log w' = log w ++ [Log INFO (u "TextProcessor initialized with input_dir: " ++ input
                                   ++ u ", output_dir: " ++ output) None]
  /\ now w' = now w.
Proof.
  intros Hinit. destruct (init_creates_directories _ _ _ _ _ Hinit) as (-> & Hin & Hout).
  split_and!; [done|done|done|..]; revert Hinit; unfold init, bind;
    destruct (makedirs_grows input w) as (_ & Hl1 & Hn1);
    (destruct (makedirs input w) as [[[]|e|] w1]; [|done|done]);
    destruct (makedirs_grows output w1) as (_ & Hl2 & Hn2);
    (destruct (makedirs output w1) as [[[]|e|] w2]; [|done|done]);
    unfold logger_info, ret; intros Hw%(f_equal snd); cbn [snd] in *; subst w';
    cbn [log now] in *; congruence.
Qed.

(** X15: whatever its outcome, the constructor removes and changes no
    file or directory; what it adds are directories, among the two names
    and the directories on the way to them. *)
Theorem init_only_adds_directories input output w :
  grows ((input :: ancestors input) ++ (output :: ancestors output))
        (fs w) (fs (init input output w).2).
Proof.
  unfold init. rewrite bind_run.
  destruct (makedirs_grows input w) as (Hg1 & _).
  assert (Hsub1 : input :: ancestors input
                  ⊆ (input :: ancestors input) ++ (output :: ancestors output))
    by (intros x Hx; apply elem_of_app; by left).
  assert (Hsub2 : output :: ancestors output
                  ⊆ (input :: ancestors input) ++ (output :: ancestors output))
    by (intros x Hx; apply elem_of_app; by right).
  destruct (makedirs input w) as [[[]|e|] w1]; cbn [snd] in *;
    [|by eapply grows_trans; [exact Hg1|apply grows_refl|..]..].
  rewrite bind_run. destruct (makedirs_grows output w1) as (Hg2 & _).
  destruct (makedirs output w1) as [[[]|e|] w2]; cbn [snd] in *;
    unfold bind, logger_info, ret; cbn [snd fs];
    by eapply grows_trans; [exact Hg1|exact Hg2|..].
Qed.

(** X16: on directories that are already there the constructor changes no
    file: it returns the processor and logs. *)
Theorem init_existing_directories input output w :
  plain input = true -> plain output = true ->
  reachable (fs w) input = true -> reachable (fs w) output = true ->
  fs w !! input = Some Dir -> fs w !! output = Some Dir ->
  init input output w
  = (Return (Processor input output),
     World (fs w)
           (log w ++ [Log INFO (u "TextProcessor initialized with input_dir: " ++ input
                                ++ u ", output_dir: " ++ output) None])
           (now w)).
Proof.
  intros Hp1 Hp2 Hr1 Hr2 Hd1 Hd2. unfold init.
  rewrite bind_run, makedirs_reachable, Hd1 by done.
  by rewrite bind_run, makedirs_reachable, Hd2 by done.
Qed.

(** X17: when a regular file has the name of one of the directories, the
    constructor raises [FileExistsError] for it; nothing is changed and
    nothing is logged. *)
Theorem init_directory_is_file name content w :
  plain name = true -> reachable (fs w) name = true ->
  fs w !! name = Some (File content) ->
  (forall output, init name output w = (Raise (FileExistsError name), w))
  /\ (forall input,
        plain input = true -> reachable (fs w) input = true ->
        fs w !! input = Some Dir ->
        init input name w = (Raise (FileExistsError name), w)).
Proof.
  intros Hplain Hreach Hfile. split.
  - intros output. unfold init. by rewrite bind_run, makedirs_reachable, Hfile.
  - intros input Hp Hr Hd. unfold init.
    rewrite bind_run, makedirs_reachable, Hd by done.
    by rewrite bind_run, makedirs_reachable, Hfile.
Qed.

End Constructor.

(** X14 and X16 on the construction with the default directories, first in
    an empty working directory and then again. *)
Lemma init_returns_witness :
  let w := empty_world (Datetime 2024 1 2 3 4 5) in
  init default_input_dir default_output_dir w = (Return processor, fresh_world)
  /\ fs fresh_world !! default_input_dir = Some Dir
  /\ fs fresh_world !! default_output_dir = Some Dir
  /\ now fresh_world = now w.
Proof.
  intros w.
  assert (Hinit : init default_input_dir default_output_dir w
                  = (Return processor, fresh_world)) by (vm_compute; reflexivity).
  split; [exact Hinit|].
  destruct (init_returns default_input_dir default_output_dir processor w fresh_world Hinit)
    as (_ & Hin & Hout & _ & Hnow).
  done.
Defined.

Lemma init_existing_directories_witness :
  (plain default_input_dir = true /\ plain default_output_dir = true
   /\ reachable (fs fresh_world) default_input_dir = true
   /\ reachable (fs fresh_world) default_output_dir = true
   /\ fs fresh_world !! default_input_dir = Some Dir
   /\ fs fresh_world !! default_output_dir = Some Dir)
  /\ fs (init default_input_dir default_output_dir fresh_world).2 = fs fresh_world.
Proof.
  assert (Hp1 : plain default_input_dir = true) by reflexivity.
  assert (Hp2 : plain default_output_dir = true) by reflexivity.
  assert (Hr1 : reachable (fs fresh_world) default_input_dir = true) by reflexivity.
  assert (Hr2 : reachable (fs fresh_world) default_output_dir = true) by reflexivity.
  assert (Hd1 : fs fresh_world !! default_input_dir = Some Dir) by reflexivity.
  assert (Hd2 : fs fresh_world !! default_output_dir = Some Dir) by reflexivity.
  split; [done|].
  by rewrite (init_existing_directories default_input_dir default_output_dir fresh_world
                Hp1 Hp2 Hr1 Hr2 Hd1 Hd2).
Defined.

(** X17 on a working directory where [data] is a regular file. *)
Lemma init_directory_is_file_witness :
  let w := with_file (u "data") (u "x") (empty_world (Datetime 2024 1 2 3 4 5)) in
  (plain (u "data") = true /\ reachable (fs w) (u "data") = true
   /\ fs w !! u "data" = Some (File (u "x")))
  /\ init (u "data") (u "out") w = (Raise (FileExistsError (u "data")), w).
Proof.
  intros w.
  assert (Hplain : plain (u "data") = true) by reflexivity.
  assert (Hreach : reachable (fs w) (u "data") = true) by reflexivity.
  assert (Hfile : fs w !! u "data" = Some (File (u "x"))) by reflexivity.
  split; [done|].
  exact (proj1 (init_directory_is_file (u "data") (u "x") w Hplain Hreach Hfile) (u "out")).
Defined.


(** ** More on [search_text] and on names *)

Section MoreSearch.

Implicit Types (s text pattern : list N) (ms : list re_match).

Lemma length_slice text a b : length (slice text a b) <= b - a.
Proof. unfold slice. rewrite length_take. lia. Qed.

Lemma slice_within text a b :
  exists before after, text = before ++ slice text a b ++ after.
Proof.
  exists (take a text), (drop (b - a) (drop a text)). unfold slice.
  by rewrite (take_drop (b - a)), take_drop.
Qed.

Lemma in_order_total text from bound ms :
  in_order from bound ms -> from <= bound ->
  sum_list (length <$> ((fun mt => slice text (m_start mt) (m_end mt)) <$> ms)) + from
  <= bound.
Proof.
  revert from. induction ms as [|mt ms IH]; intros from; cbn [in_order].
  - intros _ Hle. rewrite !fmap_nil. sum_lia.
  - intros (H1 & H2 & H3 & Hrest) _. rewrite !fmap_cons.
    specialize (IH (m_end mt) Hrest H3).
    pose proof (length_slice text (m_start mt) (m_end mt)). sum_lia.
Qed.

(** X18: for a pattern without groups, what [search_text] returns are
    strings, each a part of the text, and together no longer than the
    text. *)
Theorem search_text_matches_fit self text pattern r w :
  re_compile pattern = Compiled r 0 ->
  exists found,
    (search_text self text pattern w).1 = Return (VStr <$> found)
    /\ Forall (fun s => exists before after, text = before ++ s ++ after) found
    /\ sum_list (length <$> found) <= length text.
Proof.
  intros Hr. destruct (search_text_without_groups self text pattern r w Hr) as [Hrun Hord].
  exists ((fun mt => slice text (m_start mt) (m_end mt)) <$> finditer r text).
  split_and!.
  - rewrite Hrun. f_equal. by rewrite <- list_fmap_compose.
  - apply Forall_fmap, Forall_forall. intros mt _. apply slice_within.
  - pose proof (in_order_total text 0 (length text) _ Hord). lia.
Qed.

(** X19: a name that starts with [/] is read from and written to that very
    path, whatever the directories of the processor are. *)
Theorem absolute_names_ignore_directories self1 self2 rest content w :
  read_text_file self1 (sep :: rest) w = read_text_file self2 (sep :: rest) w
  /\ write_text_file self1 (sep :: rest) content w
     = write_text_file self2 (sep :: rest) content w.
Proof. split; reflexivity. Qed.

End MoreSearch.

(** X18 on the pattern of [main()] for print statements. *)
Lemma search_text_matches_fit_witness :
  let pattern := u "print\([^)]+\)" in
  let text := u "print(1) print(2)" in
  (exists r, re_compile pattern = Compiled r 0)
  /\ exists found,
       (search_text processor text pattern fresh_world).1 = Return (VStr <$> found)
       /\ sum_list (length <$> found) <= length text.
Proof.
  intros pattern text.
  destruct (re_compile pattern) as [r groups| |] eqn:Hr; try (vm_compute in Hr; discriminate).
  assert (Hgroups : groups = 0) by (vm_compute in Hr; congruence). subst groups.
  split; [by exists r|].
  destruct (search_text_matches_fit processor text pattern r fresh_world Hr)
    as (found & Hrun & _ & Hlen).
  by exists found.
Defined.


(** ** The text functions of the other scripts *)

Section OtherScripts.

Implicit Types (s text content cur : list N) (c : N).

Lemma split_at_length sp cur s :
  length (split_at sp cur s) = S (length (filter (fun c => c = sp) s)).
Proof.
  revert cur. induction s as [|c s IH]; intros cur; cbn [split_at]; [done|].
  rewrite filter_cons. destruct (N.eqb_spec c sp) as [->|Hne].
  - rewrite decide_True by done. cbn [length]. by rewrite IH.
  - rewrite decide_False by done. apply IH.
Qed.

Lemma newlines_are_whitespace s :
  length (filter (fun c => c = 10%N) s) <= length (filter (fun c => isspace c = true) s).
Proof.
  induction s as [|c s IH]; [done|]. rewrite !filter_cons.
  destruct (decide (c = 10%N)) as [->|Hne].
  - rewrite decide_True by done. cbn [length]. lia.
  - case_decide; cbn [length]; lia.
Qed.

Lemma analyze_text_file_run content w :
  analyze_text_file content w
  = (Return {| total_lines := length (split_at 10%N [] content);
               total_words := length (split content);
               total_characters := length content;
               average_words_per_line :=
                 Z.of_nat (length (split content))
                 # Pos.of_nat (length (split_at 10%N [] content)) |}, w).
Proof.
  unfold analyze_text_file, bind.
  pose proof (split_at_length 10%N [] content) as Hlen.
  by destruct (split_at 10%N [] content).
Qed.

(** X20: [analyze_text_file] returns on every text; [Total Lines] is one
    more than the number of line feeds, so it is never 0 and the average is
    always the quotient of the words by the lines. *)
Theorem analyze_text_file_lines content w :
  exists a,
    analyze_text_file content w = (Return a, w)
    /\ total_lines a = S (length (filter (fun c => c = 10%N) content))
    /\ average_words_per_line a = Z.of_nat (total_words a) # Pos.of_nat (total_lines a).
Proof.
  eexists. split; [apply analyze_text_file_run|].
  cbn [total_lines total_words average_words_per_line].
  split; [apply split_at_length|done].
Qed.

(** X21: the counts of [analyze_text_file] fit together, since every line
    feed is whitespace: [Total Lines + Total Words <= Total Characters + 1];
    and its words and characters are those [analyze_text] counts. *)
Theorem analyze_text_file_counts self content w :
  exists a b w',
    analyze_text_file content w = (Return a, w)
    /\ analyze_text self content w = (Return b, w')
    /\ total_lines a + total_words a <= total_characters a + 1
    /\ total_words a = word_count b
    /\ total_characters a = character_count b.
Proof.
  eexists _, _, _. split; [apply analyze_text_file_run|].
  split; [apply analyze_text_run|].
  cbn [total_lines total_words total_characters word_count character_count].
  split; [|done]. rewrite split_at_length.
  pose proof (newlines_are_whitespace content) as Hnl.
  pose proof (split_from_lengths [] content) as Hlen.
  pose proof (split_from_words [] content (Forall_nil_2 _)) as Hwords.
  assert (Hne : Forall (fun w => w <> []) (split content)).
  { eapply Forall_impl; [exact Hwords|]. by intros ? [? _]. }
  apply words_total_length in Hne. unfold split in *. cbn [length] in Hlen. lia.
Qed.

(** *** Stripping *)

Lemma lstrip_space_spec s :
  exists ws, s = ws ++ lstrip_space s
             /\ Forall (fun c => isspace c = true) ws
             /\ (forall c, head (lstrip_space s) = Some c -> isspace c = false).
Proof.
  induction s as [|c s (ws & Hs & Hws & Hhead)]; [by exists []|].
  cbn [lstrip_space]. destruct (isspace c) eqn:Hc.
  - exists (c :: ws). split_and!; [by rewrite Hs at 1|by constructor|done].
  - exists []. split_and!; [done|constructor|]. by intros ? [= <-].
Qed.

Lemma rstrip_space_spec s :
  exists ws, s = rstrip_space s ++ ws
             /\ Forall (fun c => isspace c = true) ws
             /\ (forall c, last (rstrip_space s) = Some c -> isspace c = false)
             /\ (forall c, head s = Some c -> isspace c = false ->
                           head (rstrip_space s) = Some c).
Proof.
  induction s as [|c s (ws & Hs & Hws & Hlast & _)]; [by exists []|].
  cbn [rstrip_space]. destruct (rstrip_space s) as [|x t] eqn:Hr.
  - cbn [app] in Hs. subst s. destruct (isspace c) eqn:Hc.
    + exists (c :: ws). split_and!; [done|by constructor|done|]. intros ? [= <-]. congruence.
    + exists ws. split_and!; [done|done| |by intros ? [= <-]]. by intros ? [= <-].
  - exists ws. split_and!; [by rewrite Hs at 1|done|exact Hlast|by intros ? [= <-]].
Qed.

Lemma lstrip_space_id s :
  (forall c, head s = Some c -> isspace c = false) -> lstrip_space s = s.
Proof. destruct s as [|c s]; [done|]. intros H. cbn [lstrip_space]. by rewrite (H c). Qed.

Lemma rstrip_space_id s :
  (forall c, last s = Some c -> isspace c = false) -> rstrip_space s = s.
Proof.
  induction s as [|c s IH]; [done|]. intros H. cbn [rstrip_space].
  destruct s as [|x t].
  - cbn [rstrip_space]. by rewrite (H c).
  - rewrite IH; [done|]. intros d Hd. apply H. by rewrite last_cons_cons.
Qed.

Lemma strip_spec s :
  exists before after,
    s = before ++ strip s ++ after
    /\ Forall (fun c => isspace c = true) before
    /\ Forall (fun c => isspace c = true) after
    /\ (forall c, head (strip s) = Some c -> isspace c = false)
    /\ (forall c, last (strip s) = Some c -> isspace c = false).
Proof.
  destruct (lstrip_space_spec s) as (before & Hs & Hbefore & Hhead).
  destruct (rstrip_space_spec (lstrip_space s)) as (after & Hl & Hafter & Hlast & Hkeep).
  exists before, after. unfold strip. split_and!; [|done|done| |done].
  - rewrite <- Hl. exact Hs.
  - intros c Hc. destruct (lstrip_space s) as [|x t]; [done|].
    specialize (Hhead x eq_refl). rewrite (Hkeep x eq_refl Hhead) in Hc. congruence.
Qed.

(** X22: [clean_text] cuts whitespace off both ends and nothing else: the
    text is whitespace, the cleaned text, and whitespace, and the cleaned
    text neither starts nor ends with a whitespace character. *)
Theorem clean_text_strips text :
  exists before after,
    text = before ++ clean_text text ++ after
    /\ Forall (fun c => isspace c = true) before
    /\ Forall (fun c => isspace c = true) after
    /\ (forall c, head (clean_text text) = Some c -> isspace c = false)
    /\ (forall c, last (clean_text text) = Some c -> isspace c = false).
Proof. apply strip_spec. Qed.

(** X23: cleaning a text twice is cleaning it once, and cleaning changes
    none of the words [analyze_text] and [analyze_text_file] count. *)
Theorem clean_text_keeps_words text :
  clean_text (clean_text text) = clean_text text
  /\ split (clean_text text) = split text.
Proof.
  unfold clean_text.
  destruct (strip_spec text) as (before & after & Htext & Hbefore & Hafter & Hhead & Hlast).
  split.
  - unfold strip at 1. by rewrite lstrip_space_id, rstrip_space_id.
  - rewrite Htext at 2. by rewrite split_padded.
Qed.

End OtherScripts.


(** ** The errors of the file helpers *)

Section FileErrors.

Implicit Types (name content stored : list N).

Lemma walk_raises f p dirs e w w' :
  walk f p dirs w = (Raise e, w') ->
  e = FileNotFoundError p
  \/ (e = NotADirectoryError p
      /\ existsb (fun d => match f !! d with
                           | Some (File _) | Some Binary => true
                           | _ => false
                           end) dirs = true).
Proof.
  induction dirs as [|d dirs IH]; cbn [walk existsb]; [done|].
  destruct (f !! d) as [[|stored|]|]; cbn [orb].
  - exact IH.
  - intros [= <- _]. by right.
  - intros [= <- _]. by right.
  - intros [= <- _]. by left.
Qed.

(** X24: [read_text_file] never changes a file.  When it returns, the
    path exists and one INFO record is logged; when it raises, the exception
    is logged in one ERROR record, and [FileNotFoundError] tells that the
    path does not exist, [IsADirectoryError] that it is a directory,
    [NotADirectoryError] that a regular file is in the way, and
    [UnicodeDecodeError] that the file holds no UTF-8 text. *)
Theorem read_text_file_outcomes self name w :
  let file_path := path_join (input_dir self) name in
  fs (read_text_file self name w).2 = fs w
  /\ match (read_text_file self name w).1 with
     | Return content =>
         path_exists (fs w) file_path = true
         /\ log (read_text_file self name w).2
            = log w ++ [Log INFO (u "Successfully read file: " ++ name) None]
     | Raise e =>
         log (read_text_file self name w).2
         = log w ++ [Log ERROR (u "Error reading file " ++ name ++ u ": ") (Some e)]
         /\ (e = FileNotFoundError file_path -> path_exists (fs w) file_path = false)
         /\ (e = IsADirectoryError file_path -> fs w !! file_path = Some Dir)
         /\ (e = NotADirectoryError file_path -> blocked (fs w) file_path = true)
         /\ (e = UnicodeDecodeError -> fs w !! file_path = Some Binary)
     | Unmodelled => True
     end.
Proof.
  intros file_path. split; [apply read_text_file_pure|].
  destruct (read_text_file self name w) as [[content|e|] w'] eqn:Hread; cbn [fst snd];
    [| |done].
  - apply read_text_file_returned in Hread as (stored & _ & Hreach & Hfile & _ & ->).
    fold file_path in Hreach, Hfile. split; [|done].
    unfold path_exists. rewrite Hreach, bool_decide_eq_true_2; [done|by eexists].
  - pose proof (read_text_file_raised _ _ _ _ _ Hread) as ->. split; [done|].
    revert Hread. cbv [read_text_file try_except bind open_read get_fs].
    fold file_path. destruct (plain file_path); [|done]. unfold path_exists.
    destruct (reachable (fs w) file_path) eqn:Hreach.
    + rewrite resolve_parent_reachable by done.
      destruct (fs w !! file_path) as [[|stored|]|] eqn:Hfile;
        cbv [ret raise logger_info logger_error]; intros [= <-];
        split_and!; done.
    + unfold resolve_parent.
      destruct (walk _ _ _ w) as [[[]|e'|] w1] eqn:Hwalk.
      * pose proof (resolve_parent_unreachable _ _ w Hreach) as (e'' & He & _).
        unfold resolve_parent in He. congruence.
      * apply walk_raises in Hwalk as [->|[-> Hb]];
          cbv [logger_error raise]; intros [= <-]; split_and!; done.
      * done.
Qed.

(** X25: a text that UTF-8 cannot encode (one with a lone surrogate) is
    refused only after the file has been opened: [write_text_file] raises
    [UnicodeEncodeError], logs it, and leaves the target empty, whatever it
    held before. *)
Theorem write_text_file_unencodable self name content w :
  let target := path_join (output_dir self) name in
  plain target = true -> reachable (fs w) target = true ->
  fs w !! target <> Some Dir -> encodable content = false ->
  write_text_file self name content w
  = (Raise UnicodeEncodeError,
     World (<[target := File []]> (fs w))
           (log w ++ [Log ERROR (u "Error writing to file " ++ name ++ u ": ")
                          (Some UnicodeEncodeError)])
           (now w)).
Proof.
  intros target Hplain Hreach Hnotdir Henc.
  cbv [write_text_file try_except bind open_write get_fs]. fold target.
  rewrite Hplain, resolve_parent_reachable by done.
  destruct (fs w !! target) as [[|old|]|]; [done| | |];
    cbv [put_fs raise logger_error]; cbn [fs log now]; by rewrite Henc.
Qed.

End FileErrors.

(** X24 on a name that is a directory and on a file that is no text, and
    X25 on an existing file. *)
Lemma read_text_file_outcomes_witness :
  let self := Processor (u "data") (u "data") in
  let w := World (<[u "data/blob" := Binary]> (fs fresh_world)) [] (now fresh_world) in
  (read_text_file self (u "input") w).1 = Raise (IsADirectoryError (u "data/input"))
  /\ (read_text_file self (u "blob") w).1 = Raise UnicodeDecodeError
  /\ fs (read_text_file self (u "blob") w).2 = fs w.
Proof.
  intros self w. split; [reflexivity|]. split; [reflexivity|].
  exact (proj1 (read_text_file_outcomes self (u "blob") w)).
Defined.

Lemma write_text_file_unencodable_witness :
  let w := with_file (u "data/output/x.txt") (u "old") fresh_world in
  let target := path_join (output_dir processor) (u "x.txt") in
  (plain target = true /\ reachable (fs w) target = true
   /\ fs w !! target <> Some Dir /\ encodable [55296%N] = false)
  /\ fs (write_text_file processor (u "x.txt") [55296%N] w).2 !! target = Some (File []).
Proof.
  intros w target.
  assert (Hplain : plain target = true) by reflexivity.
  assert (Hreach : reachable (fs w) target = true) by reflexivity.
  assert (Hfile : fs w !! target <> Some Dir) by (vm_compute; discriminate).
  assert (Henc : encodable [55296%N] = false) by reflexivity.
  split; [done|].
  rewrite (write_text_file_unencodable processor (u "x.txt") [55296%N] w
             Hplain Hreach Hfile Henc).
  cbn [snd fs]. apply lookup_insert_eq.
Defined.

(** ** Writing and the errors of reading and searching *)

Section WritingAndErrors.

Implicit Types (name content : list N) (f : gmap (list N) node).





End WritingAndErrors.



(** Patterns [re] refuses, each for another reason, and the two patterns
    of [main()]. *)
Example search_text_patterns_ex :
  Forall (fun pattern => (search_text processor (u "text") pattern fresh_world).1
                         = Raise (ReError pattern))
         [u "a)"; u "*a"; u "[a"; u "a**"; u "[b-a]"; u "("; u "print("]
  /\ Forall (fun pattern => exists found,
                (search_text processor (u "text") pattern fresh_world).1 = Return found)
            [u "print\([^)]+\)"; u "#+ .+"].
Proof. split; repeat constructor; eexists; reflexivity. Qed.

